(** * keyway docker: the argument-rewriting engine of [internal/cmd/docker.go]

    A shallow embedding of [findImagePosition], [extractUserEnvVars],
    [runDockerRun] and [runDockerCompose], and the properties of the
    specification that concern them.

    Conventions.
    - A Go [string] is a Rocq [string] (a sequence of bytes); [[]string] is
      [list string]; [map[string]string] is [gmap string string].
    - An index expression [a[i]] and a slice expression [a[:n]], [a[n:]]
      panic out of range; the embedding keeps that in the [outcome] type.
    - Loop cursors are [nat]; the [int] a function returns is a [Z]
      (the cursor never exceeds [len(args) + 1], far from the 64-bit bound). *)

From Stdlib Require Import ZArith String Ascii.
From stdpp Require Import gmap strings list fin_maps.
From Equations Require Import Equations.

(** ** Run-time failures *)

Inductive outcome (A : Type) : Type :=
| Done (a : A)
| Panic.
Arguments Done {A} a.
Arguments Panic {A}.

#[global] Instance outcome_ret : MRet outcome := λ A a, Done a.

#[global] Instance outcome_bind : MBind outcome := λ A B k m,
  match m with
  | Done a => k a
  | Panic => Panic
  end.

(** [a[i]] *)
Definition index {A} (a : list A) (i : nat) : outcome A :=
  match a !! i with
  | Some x => Done x
  | None => Panic
  end.

(** [a[:n]] *)
Definition slice_to {A} (a : list A) (n : nat) : outcome (list A) :=
  if decide (n ≤ length a) then Done (take n a) else Panic.

(** [a[n:]] *)
Definition slice_from {A} (a : list A) (n : nat) : outcome (list A) :=
  if decide (n ≤ length a) then Done (drop n a) else Panic.

(** ** The functions of package [strings] that the engine calls *)

Module strings.

(** [s[n:]], for [n <= len(s)] *)
Fixpoint skip (n : nat) (s : string) : string :=
  match n, s with
  | O, _ => s
  | S n', String _ s' => skip n' s'
  | S _, EmptyString => EmptyString
  end.

(** [s[:n]], for [n <= len(s)] *)
Fixpoint first (n : nat) (s : string) : string :=
  match n, s with
  | O, _ => EmptyString
  | S n', String c s' => String c (first n' s')
  | S _, EmptyString => EmptyString
  end.

(** [strings.HasPrefix(s, prefix)] *)
Definition HasPrefix (s prefix : string) : bool := String.prefix prefix s.

(** [strings.Index(s, substr)]: the offset of the first occurrence of
    [substr] in [s]; [None] stands for Go's [-1]. *)
Fixpoint Index (s substr : string) : option nat :=
  if String.prefix substr s then Some O
  else match s with
       | EmptyString => None
       | String _ s' => S <$> Index s' substr
       end.

(** [strings.Contains(s, substr)], which is [Index(s, substr) >= 0] *)
Definition Contains (s substr : string) : bool :=
  match Index s substr with
  | Some _ => true
  | None => false
  end.

(** [strings.TrimPrefix(s, prefix)] *)
Definition TrimPrefix (s prefix : string) : string :=
  if HasPrefix s prefix then skip (String.length prefix) s else s.

(** [strings.SplitN(s, sep, 2)] for a non-empty [sep]: cut at the first
    occurrence of [sep], or the whole of [s] when there is none. *)
Definition SplitN2 (s sep : string) : list string :=
  match Index s sep with
  | Some m => [first m s; skip (m + String.length sep) s]
  | None => [s]
  end.

End strings.

(** ** [findImagePosition] *)

(** Flags that take a value (require skipping next arg) *)
Definition flagsWithValue : gmap string bool :=
  list_to_map
    [ ("-a", true); ("--attach", true);
      ("--add-host", true);
      ("--blkio-weight", true);
      ("--blkio-weight-device", true);
      ("--cap-add", true);
      ("--cap-drop", true);
      ("--cgroup-parent", true);
      ("--cgroupns", true);
      ("--cidfile", true);
      ("--cpu-count", true);
      ("--cpu-percent", true);
      ("--cpu-period", true);
      ("--cpu-quota", true);
      ("--cpu-rt-period", true);
      ("--cpu-rt-runtime", true);
      ("--cpu-shares", true); ("-c", true);
      ("--cpus", true);
      ("--cpuset-cpus", true);
      ("--cpuset-mems", true);
      ("--device", true);
      ("--device-cgroup-rule", true);
      ("--device-read-bps", true);
      ("--device-read-iops", true);
      ("--device-write-bps", true);
      ("--device-write-iops", true);
      ("--dns", true);
      ("--dns-option", true);
      ("--dns-search", true);
      ("--domainname", true);
      ("--entrypoint", true);
      ("-e", true); ("--env", true);
      ("--env-file", true);
      ("--expose", true);
      ("--gpus", true);
      ("--group-add", true);
      ("--health-cmd", true);
      ("--health-interval", true);
      ("--health-retries", true);
      ("--health-start-period", true);
      ("--health-timeout", true);
      ("-h", true); ("--hostname", true);
      ("--ip", true);
      ("--ip6", true);
      ("--ipc", true);
      ("--isolation", true);
      ("--kernel-memory", true);
      ("-l", true); ("--label", true);
      ("--label-file", true);
      ("--link", true);
      ("--link-local-ip", true);
      ("--log-driver", true);
      ("--log-opt", true);
      ("--mac-address", true);
      ("-m", true); ("--memory", true);
      ("--memory-reservation", true);
      ("--memory-swap", true);
      ("--memory-swappiness", true);
      ("--mount", true);
      ("--name", true);
      ("--network", true); ("--net", true);
      ("--network-alias", true); ("--net-alias", true);
      ("--oom-score-adj", true);
      ("--pid", true);
      ("--pids-limit", true);
      ("--platform", true);
      ("-p", true); ("--publish", true);
      ("--pull", true);
      ("--restart", true);
      ("--runtime", true);
      ("--security-opt", true);
      ("--shm-size", true);
      ("--stop-signal", true);
      ("--stop-timeout", true);
      ("--storage-opt", true);
      ("--sysctl", true);
      ("--tmpfs", true);
      ("--ulimit", true);
      ("-u", true); ("--user", true);
      ("--userns", true);
      ("--uts", true);
      ("-v", true); ("--volume", true);
      ("--volume-driver", true);
      ("--volumes-from", true);
      ("-w", true); ("--workdir", true) ].

#[global] Opaque flagsWithValue.

(** [flagsWithValue[arg]]: a missing key reads as [false]. *)
Definition takesValue (arg : string) : bool :=
  default false (flagsWithValue !! arg).

(** The [for i < len(args)] loop of [findImagePosition], entered with the
    cursor at [i]. *)
Equations? findImagePosition_from (args : list string) (i : nat) : outcome Z
  by wf (length args - i) lt :=
  findImagePosition_from args i with decide (i < length args) => {
    | right _ := Done (-1)%Z;
    | left _ with index args i => {
        | Panic := Panic;
        | Done arg :=
            (* Not a flag - this is the image *)
            if negb (strings.HasPrefix arg "-") then Done (Z.of_nat i)
            (* Check for --flag=value format *)
            else if strings.Contains arg "=" then
              findImagePosition_from args (i + 1)
            (* Check if this flag takes a value *)
            else if takesValue arg then
              findImagePosition_from args (i + 2)
            (* Boolean flag, just skip it *)
            else findImagePosition_from args (i + 1) } }.
Proof. all: lia. Qed.

Definition findImagePosition (args : list string) : outcome Z :=
  findImagePosition_from args 0.

(** ** [extractUserEnvVars] *)

(** The tail of the loop body: [if envVal != "" { ... result[key] = value }] *)
Definition recordEnvVal (envVal : string) (result : gmap string string)
  : outcome (gmap string string) :=
  if decide (envVal ≠ "") then
    let parts := strings.SplitN2 envVal "=" in
    if decide (1 ≤ length parts) then
      key ← index parts 0;
      value ← (if decide (length parts = 2) then index parts 1
               else Done "");
      Done (<[key := value]> result)
    else Done result
  else Done result.

(** The [for i := 0; i < len(args); i++] loop of [extractUserEnvVars],
    entered with the cursor at [i] and the map built so far. *)
Equations? extractUserEnvVars_from (args : list string) (i : nat)
    (result : gmap string string) : outcome (gmap string string)
  by wf (length args - i) lt :=
  extractUserEnvVars_from args i result with decide (i < length args) => {
    | right _ := Done result;
    | left _ with index args i => {
        | Panic := Panic;
        | Done arg :=
            if decide (arg = "-e" ∨ arg = "--env") then
              if decide (i + 1 < length args) then
                match index args (i + 1) with
                | Done envVal =>
                    match recordEnvVal envVal result with
                    | Done result' =>
                        extractUserEnvVars_from args (i + 1 + 1) result'
                    | Panic => Panic
                    end
                | Panic => Panic
                end
              else
                match recordEnvVal "" result with
                | Done result' => extractUserEnvVars_from args (i + 1) result'
                | Panic => Panic
                end
            else if strings.HasPrefix arg "-e=" then
              match recordEnvVal (strings.TrimPrefix arg "-e=") result with
              | Done result' => extractUserEnvVars_from args (i + 1) result'
              | Panic => Panic
              end
            else if strings.HasPrefix arg "--env=" then
              match recordEnvVal (strings.TrimPrefix arg "--env=") result with
              | Done result' => extractUserEnvVars_from args (i + 1) result'
              | Panic => Panic
              end
            else
              (* continue *)
              extractUserEnvVars_from args (i + 1) result } }.
Proof. all: lia. Qed.

Definition extractUserEnvVars (args : list string)
  : outcome (gmap string string) :=
  extractUserEnvVars_from args 0 ∅.

(** ** The collaborators: process runner and file system *)

(** A Go [error]: a plain one, or one wrapped by [fmt.Errorf("...: %w", err)]. *)
Inductive error : Type :=
| errorString (msg : string)
| wrapError (msg : string) (err : error).

(** One call of [deps.CmdRunner.RunCommand(name, args, env)]; [cmd_env] is
    [None] for a nil map. [cmd_files] is the file system the launched process
    finds. *)
Record Invocation : Type := {
  cmd_name : string;
  cmd_args : list string;
  cmd_env : option (gmap string string);
  cmd_files : gmap string string
}.

(** The world around one invocation of the command. The first three fields
    are state; the last three are what the host will answer. *)
Record World : Type := {
  files : gmap string string;       (* path -> content *)
  launched : list Invocation;       (* calls of the runner, oldest first *)
  writes : nat;                     (* file writes issued so far *)
  tempFile : string + error;        (* answer of the next [os.CreateTemp] *)
  shortWrite : nat → option nat;    (* [Some n]: that write stores only the
                                       first [n] bytes and reports an error *)
  exitStatus : option error         (* answer of the runner *)
}.

(** The world with its file system replaced. *)
Definition withFiles (fs : gmap string string) (w : World) : World :=
  {| files := fs; launched := launched w; writes := writes w;
     tempFile := tempFile w; shortWrite := shortWrite w;
     exitStatus := exitStatus w |}.

(** The world after one more file write has been issued. *)
Definition afterWrite (w : World) : World :=
  {| files := files w; launched := launched w; writes := S (writes w);
     tempFile := tempFile w; shortWrite := shortWrite w;
     exitStatus := exitStatus w |}.

(** The world after the runner has been called. *)
Definition afterCall (w : World) (call : Invocation) : World :=
  {| files := files w; launched := launched w ++ [call];
     writes := writes w; tempFile := tempFile w;
     shortWrite := shortWrite w; exitStatus := exitStatus w |}.

Definition Go (A : Type) : Type := World → outcome (A * World).

#[global] Instance Go_ret : MRet Go := λ A a w, Done (a, w).

#[global] Instance Go_bind : MBind Go := λ A B k m w,
  match m w with
  | Done (a, w') => k a w'
  | Panic => Panic
  end.

(** A pure computation that may panic, run inside [Go]. *)
Definition lift {A} (m : outcome A) : Go A := λ w,
  match m with
  | Done a => Done (a, w)
  | Panic => Panic
  end.

(** [deps.CmdRunner.RunCommand(name, args, env)] *)
Definition RunCommand (name : string) (args : list string)
    (env : option (gmap string string)) : Go (option error) := λ w,
  Done (exitStatus w,
        afterCall w {| cmd_name := name; cmd_args := args; cmd_env := env;
                       cmd_files := files w |}).

(** [os.CreateTemp("", pattern)]: a new empty file, named by the host; the
    file handle is modelled by its path ([envFile.Name()]). *)
Definition CreateTemp (pattern : string) : Go (string + error) := λ w,
  match tempFile w with
  | inl path => Done (inl path, withFiles (<[path := ""]> (files w)) w)
  | inr err => Done (inr err, w)
  end.

(** [fmt.Fprintf(f, ...)] once the text is formatted: appends to the file
    and returns the number of bytes written and an error, if any. *)
Definition Fprintf (f : string) (text : string) : Go (nat * option error) :=
  λ w,
  let (stored, err) :=
    match shortWrite w (writes w) with
    | None => (text, None)
    | Some n => (strings.first n text, Some (errorString "short write"))
    end in
  Done ((String.length stored, err),
        withFiles (alter (λ old, old +:+ stored) f (files w)) (afterWrite w)).

(** [f.Close()] *)
Definition Close (f : string) : Go (option error) := λ w, Done (None, w).

(** [os.Remove(name)] *)
Definition Remove (name : string) : Go (option error) := λ w,
  Done (None, withFiles (delete name (files w)) w).

(** ** [runDockerRun] and [runDockerCompose] *)

(** DockerOptions contains the parsed flags for the docker command *)
Record DockerOptions : Type := {
  EnvName : string;
  EnvFlagSet : bool;
  DockerCommand : string;      (* "run", "compose", etc. *)
  DockerArgs : list string     (* Arguments to pass to docker subcommand *)
}.

(** [fmt.Sprintf("%s=%s", k, v)] *)
Definition Sprintf_kv (k v : string) : string := k +:+ "=" +:+ v.

(** The text [fmt.Fprintf(envFile, "%s=%s\n", k, v)] formats. *)
Definition Sprintf_kv_nl (k v : string) : string :=
  k +:+ "=" +:+ v +:+ String "010"%char "".

(** The body of the loop [for k, v := range secrets { fmt.Fprintf(...) }];
    the results of [Fprintf] are dropped, as in the source. *)
Definition writeLine (envFile : string) (before : Go unit)
    (kv : string * string) : Go unit :=
  _ ← before; _ ← Fprintf envFile (Sprintf_kv_nl kv.1 kv.2); mret ().

Section Engine.

(** [range m]: the order in which a [for k, v := range m] loop visits the
    entries of [m]. Go leaves it unspecified. *)
Variable range : gmap string string → list (string * string).

(** The loop of [runDockerRun] that injects the vault secrets, excluding
    those the user explicitly set. *)
Definition injectSecrets (secrets userEnvVars : gmap string string)
    (newArgs : list string) : list string :=
  foldl (λ newArgs '(k, v),
           if decide (userEnvVars !! k = None)
           then newArgs ++ ["-e"; Sprintf_kv k v]
           else newArgs)
        newArgs (range secrets).

(** The argument vector [runDockerRun] builds. *)
Definition runDockerRun_newArgs (opts : DockerOptions)
    (secrets : gmap string string) : outcome (list string) :=
  let args := DockerArgs opts in
  (* Extract user's -e flags to ensure they take precedence *)
  userEnvVars ← extractUserEnvVars args;
  (* Find where to inject -e flags (before the image name) *)
  imagePos ← findImagePosition args;
  (* Add docker subcommand (e.g., "run") *)
  let newArgs := [] ++ [DockerCommand opts] in
  if decide (0 ≤ imagePos)%Z then
    (* Add args before image *)
    before ← slice_to args (Z.to_nat imagePos);
    let newArgs := newArgs ++ before in
    (* Inject vault secrets (excluding those user explicitly set) *)
    let newArgs := injectSecrets secrets userEnvVars newArgs in
    (* Add image and remaining args *)
    rest ← slice_from args (Z.to_nat imagePos);
    Done (newArgs ++ rest)
  else
    (* No image found, inject secrets at the end of options *)
    let newArgs := injectSecrets secrets userEnvVars newArgs in
    Done (newArgs ++ args).

(** runDockerRun handles docker run commands by injecting -e flags *)
Definition runDockerRun (opts : DockerOptions)
    (secrets : gmap string string) : Go (option error) :=
  newArgs ← lift (runDockerRun_newArgs opts secrets);
  (* Execute docker with secrets as -e flags (not in environment) *)
  RunCommand "docker" newArgs None.

(** The test [len(opts.DockerArgs) > 0 && opts.DockerArgs[0] == "run"] *)
Definition isComposeRun (opts : DockerOptions) : outcome bool :=
  if decide (0 < length (DockerArgs opts)) then
    a0 ← index (DockerArgs opts) 0;
    Done (bool_decide (a0 = "run"))
  else Done false.

(** runDockerCompose handles docker compose commands *)
Definition runDockerCompose (opts : DockerOptions)
    (secrets : gmap string string) : Go (option error) :=
  let args := ["compose"] ++ DockerArgs opts in
  isRun ← lift (isComposeRun opts);
  if (isRun : bool) then
    (* Find position after "run" to inject -e flags *)
    let newArgs := ["compose"; "run"] in
    let newArgs :=
      foldl (λ newArgs '(k, v), newArgs ++ ["-e"; Sprintf_kv k v])
            newArgs (range secrets) in
    (* Append remaining args after "run" *)
    newArgs ← (if decide (1 < length (DockerArgs opts)) then
                 rest ← lift (slice_from (DockerArgs opts) 1);
                 mret (newArgs ++ rest)
               else mret newArgs);
    RunCommand "docker" newArgs None
  else if decide (0 < size secrets) then
    (* For "up" and other commands, use --env-file *)
    created ← CreateTemp "keyway-env-*.env";
    match created with
    | inr err =>
        mret (Some (wrapError "failed to create temp env file: " err))
    | inl envFile =>
        _ ← foldl (writeLine envFile) (mret ()) (range secrets);
        _ ← Close envFile;
        (* Insert --env-file after "compose" *)
        let args := ["compose"; "--env-file"; envFile] ++ DockerArgs opts in
        res ← RunCommand "docker" args None;
        (* defer os.Remove(envFile.Name()) *)
        _ ← Remove envFile;
        mret res
    end
  else RunCommand "docker" args None.

(** Step 7 of [runDockerWithDeps]: the switch on the subcommand. *)
Definition executeDockerCommand (opts : DockerOptions)
    (secrets : gmap string string) : Go (option error) :=
  if decide (DockerCommand opts = "compose")
  then runDockerCompose opts secrets
  else runDockerRun opts secrets.

End Engine.

(** A world in which nothing has happened yet. *)
Definition world0 (tmp : string + error) (short : nat → option nat)
    (exit : option error) : World :=
  {| files := ∅; launched := []; writes := 0; tempFile := tmp;
     shortWrite := short; exitStatus := exit |}.

(** ** Vocabulary of the specification *)

(** A run of complete options: each is a flag with an inline value, a
    value-consuming flag together with the token it consumes, or a boolean
    flag. A token counts as a flag when it starts with [-]. *)
Inductive Options : list string → Prop :=
| Options_nil : Options []
| Options_inline f rest :
    strings.HasPrefix f "-" = true → strings.Contains f "=" = true →
    Options rest → Options (f :: rest)
| Options_value f v rest :
    strings.HasPrefix f "-" = true → strings.Contains f "=" = false →
    takesValue f = true →
    Options rest → Options (f :: v :: rest)
| Options_bool f rest :
    strings.HasPrefix f "-" = true → strings.Contains f "=" = false →
    takesValue f = false →
    Options rest → Options (f :: rest).

(** A sequence made of flags (and the values they consume) only; its last
    token may be a value-consuming flag whose value is missing. *)
Inductive OnlyFlags : list string → Prop :=
| OnlyFlags_options l : Options l → OnlyFlags l
| OnlyFlags_dangling l f :
    Options l →
    strings.HasPrefix f "-" = true → strings.Contains f "=" = false →
    takesValue f = true →
    OnlyFlags (l ++ [f]).

(** The tokens of [args] from cursor [i] up to, not including, cursor [p]. *)
Definition segment (args : list string) (i p : nat) : list string :=
  drop i (take p args).

(** The specification's reading of a payload [KEY[=VALUE]]: cut at the first
    [=]; no [=] means the empty value. *)
Definition splitFirst (payload : string) : string * string :=
  match strings.Index payload "=" with
  | Some m => (strings.first m payload, strings.skip (m + 1) payload)
  | None => (payload, "")
  end.

(** What one payload adds to the override set: nothing when it is empty. *)
Definition override (payload : string) (m : gmap string string)
  : gmap string string :=
  if decide (payload = "") then m
  else <[(splitFirst payload).1 := (splitFirst payload).2]> m.

(** The payloads of the environment flags of a token sequence, in order:
    the token after [-e] or [--env], the text after [-e=] or [--env=]. *)
Fixpoint envPayloads (args : list string) : list string :=
  match args with
  | [] => []
  | arg :: rest =>
      if decide (arg = "-e" ∨ arg = "--env") then
        match rest with
        | payload :: rest' => payload :: envPayloads rest'
        | [] => []
        end
      else if strings.HasPrefix arg "-e=" then
        strings.TrimPrefix arg "-e=" :: envPayloads rest
      else if strings.HasPrefix arg "--env=" then
        strings.TrimPrefix arg "--env=" :: envPayloads rest
      else envPayloads rest
  end.

(** The override set of a sequence of payloads, later ones written last. *)
Definition overridesOf (payloads : list string) : gmap string string :=
  foldl (λ m payload, override payload m) ∅ payloads.

(** The injected flags of a sequence of secrets, as the specification
    writes them: for each secret the token [-e] and then the token made of
    the key, the character [=] and the value. *)
Definition envFlags (kvs : list (string * string)) : list string :=
  flat_map (λ '(k, v), ["-e"; k +:+ "=" +:+ v]) kvs.

(** [SecretSet \ keys(OverrideSet)] *)
Definition effectiveInjectionSet (secrets overrides : gmap string string)
  : gmap string string :=
  filter (λ kv, overrides !! kv.1 = None) secrets.

(** The final sequence of run mode, given the image position [z] and the
    injected flags. *)
Definition runVector (subcommand : string) (args : list string) (z : Z)
    (injected : list string) : list string :=
  if decide (0 ≤ z)%Z
  then [subcommand] ++ take (Z.to_nat z) args ++ injected
       ++ drop (Z.to_nat z) args
  else [subcommand] ++ injected ++ args.

(** The text of an env file: one newline-terminated [KEY=VALUE] line per
    secret, nothing quoted or escaped. *)
Definition envFileText (kvs : list (string * string)) : string :=
  foldr (λ '(k, v) text, k +:+ "=" +:+ v +:+ String "010"%char text) "" kvs.

(** How often [flag] directly followed by [payload] occurs in [argv]. *)
Fixpoint countPair (flag payload : string) (argv : list string) : nat :=
  match argv with
  | a :: (b :: _) as rest =>
      (if decide (a = flag ∧ b = payload) then 1 else 0)
      + countPair flag payload rest
  | _ => 0
  end.

(** The world after [n] complete writes have brought file [f] to [text]. *)
Definition afterWrites (w : World) (f text : string) (n : nat) : World :=
  {| files := <[f := text]> (files w); launched := launched w;
     writes := writes w + n; tempFile := tempFile w;
     shortWrite := shortWrite w; exitStatus := exitStatus w |}.

(** ** Sample invocations *)

Definition optsRun : DockerOptions :=
  {| EnvName := "development"; EnvFlagSet := true; DockerCommand := "run";
     DockerArgs := ["-e"; "API_KEY=user"; "alpine"] |}.

Definition optsComposeRun : DockerOptions :=
  {| EnvName := "development"; EnvFlagSet := true; DockerCommand := "compose";
     DockerArgs := ["run"; "-e"; "A=mine"; "web"] |}.

Definition optsComposeUp : DockerOptions :=
  {| EnvName := "production"; EnvFlagSet := true; DockerCommand := "compose";
     DockerArgs := ["up"; "-d"] |}.

Definition optsComposeBare : DockerOptions :=
  {| EnvName := "production"; EnvFlagSet := true; DockerCommand := "compose";
     DockerArgs := [] |}.

Definition optsRunPort : DockerOptions :=
  {| EnvName := "development"; EnvFlagSet := true; DockerCommand := "run";
     DockerArgs := ["-p"; "8080:8080"; "myapp:latest"; "serve"] |}.

Definition optsRunNoImage : DockerOptions :=
  {| EnvName := "development"; EnvFlagSet := true; DockerCommand := "run";
     DockerArgs := ["-d"; "--rm"] |}.

Definition secretsTwo : gmap string string :=
  {[ "API_KEY" := "v"; "OTHER" := "o" ]}.

Definition secretsOne : gmap string string := {[ "A" := "1" ]}.

Definition tmpPath : string := "/tmp/keyway-env-1.env".

(** A host on which every operation succeeds. *)
Definition worldOk : World := world0 (inl tmpPath) (λ _, None) None.

(** A host whose disk is full: the temporary file can be created, but every
    write to it stores nothing and reports an error. *)
Definition worldDiskFull : World := world0 (inl tmpPath) (λ _, Some 0) None.

(** ** The entry point and the choice of environment *)

(** [a[i] = x] *)
Definition store {A} (a : list A) (i : nat) (x : A) : outcome (list A) :=
  if decide (i < length a) then Done (<[i := x]> a) else Panic.

(** What [runDockerCmd] hands to [runDockerWithDeps]: an error when no
    subcommand is given, else the options. [envChanged] and [envName] are
    [cmd.Flags().Changed("env")] and [cmd.Flags().GetString("env")]. *)
Definition runDockerCmd_opts (envChanged : bool) (envName : string)
    (args : list string) : outcome (DockerOptions + error) :=
  if decide (length args = 0) then
    Done (inr (errorString
      "docker subcommand required (e.g., 'run' or 'compose')"))
  else
    command ← index args 0;
    rest ← slice_from args 1;
    Done (inl {| EnvName := envName; EnvFlagSet := envChanged;
                 DockerCommand := command; DockerArgs := rest |}).

(** The loop [for i, e := range vaultEnvs] of [runDockerWithDeps] that looks
    for "development": the index of its first occurrence, counted from [i],
    or [0] (the initial [defaultIdx]) when there is none. *)
Fixpoint findDefaultIdx (vaultEnvs : list string) (i : nat) : nat :=
  match vaultEnvs with
  | [] => 0
  | e :: rest =>
      if decide (e = "development") then i else findDefaultIdx rest (S i)
  end.

(** [vaultEnvs] after the test [err != nil || len(vaultEnvs) == 0], given
    what [client.GetVaultEnvironments] returned. *)
Definition vaultEnvsOrDefault (fetched : list string + error)
  : list string :=
  match fetched with
  | inr _ => ["development"; "staging"; "production"]
  | inl vaultEnvs =>
      if decide (length vaultEnvs = 0)
      then ["development"; "staging"; "production"]
      else vaultEnvs
  end.

(** The options [runDockerWithDeps] offers to [deps.UI.Select]. *)
Definition environmentChoices (fetched : list string + error)
  : outcome (list string) :=
  let vaultEnvs := vaultEnvsOrDefault fetched in
  (* Find default index (development) *)
  let defaultIdx := findDefaultIdx vaultEnvs 0 in
  (* Reorder to put default first *)
  if decide (0 < defaultIdx) then
    atDefault ← index vaultEnvs defaultIdx;
    atZero ← index vaultEnvs 0;
    vaultEnvs ← store vaultEnvs 0 atDefault;
    store vaultEnvs defaultIdx atZero
  else Done vaultEnvs.

(** A token that the extractor reads as an environment flag. *)
Definition isEnvFlag (tok : string) : Prop :=
  tok = "-e" ∨ tok = "--env" ∨
  strings.HasPrefix tok "-e=" = true ∨ strings.HasPrefix tok "--env=" = true.

(** * Properties *)

(** ** Facts about the [strings] functions *)

Module strings_facts.
Import strings.

Lemma append_cons (c : ascii) (s t : string) :
  String c s +:+ t = String c (s +:+ t).
Proof. reflexivity. Qed.

Lemma append_nil (t : string) : "" +:+ t = t.
Proof. reflexivity. Qed.

Lemma append_assoc (a b c : string) : (a +:+ b) +:+ c = a +:+ (b +:+ c).
Proof.
  induction a as [|x a IH]; [done|].
  rewrite !append_cons. by rewrite IH.
Qed.

Lemma append_empty_r (a : string) : a +:+ "" = a.
Proof. induction a as [|x a IH]; [done|]. by rewrite append_cons, IH. Qed.

Lemma prefix_nil (s : string) : String.prefix "" s = true.
Proof. by destruct s. Qed.

Lemma prefix_cons (c d : ascii) (p s : string) :
  String.prefix (String c p) (String d s)
  = if ascii_dec c d then String.prefix p s else false.
Proof. reflexivity. Qed.

Lemma Index_cons (c : ascii) (s substr : string) :
  Index (String c s) substr
  = if String.prefix substr (String c s) then Some 0
    else S <$> Index s substr.
Proof. reflexivity. Qed.

Lemma prefix_app (p s : string) : String.prefix p (p +:+ s) = true.
Proof.
  induction p as [|c p IH].
  - apply prefix_nil.
  - rewrite append_cons, prefix_cons. by destruct (ascii_dec c c).
Qed.

Lemma skip_app (p s : string) : skip (String.length p) (p +:+ s) = s.
Proof. induction p as [|c p IH]; [done | exact IH]. Qed.

Lemma skip_add (n m : nat) (s : string) :
  skip (n + m) s = skip m (skip n s).
Proof.
  revert s. induction n as [|n IH]; intros s; [done|].
  destruct s as [|c s]; simpl; [by destruct m | apply IH].
Qed.

Lemma first_app (p s : string) : first (String.length p) (p +:+ s) = p.
Proof.
  induction p as [|c p IH]; [done|].
  rewrite append_cons. simpl. by rewrite IH.
Qed.

Lemma HasPrefix_app (p s : string) : HasPrefix (p +:+ s) p = true.
Proof. apply prefix_app. Qed.

Lemma TrimPrefix_app (p s : string) : TrimPrefix (p +:+ s) p = s.
Proof. unfold TrimPrefix, HasPrefix. by rewrite prefix_app, skip_app. Qed.

(** A token with a given prefix is that prefix followed by what
    [TrimPrefix] leaves. *)
Lemma HasPrefix_inv (s p : string) :
  HasPrefix s p = true → s = p +:+ TrimPrefix s p.
Proof.
  unfold TrimPrefix. intros H. rewrite H. revert s H. unfold HasPrefix.
  induction p as [|c p IH]; intros s H; [done|].
  destruct s as [|d s]; [done|]. rewrite prefix_cons in H.
  destruct (ascii_dec c d) as [->|]; [|done].
  rewrite append_cons. simpl. f_equal. by apply IH.
Qed.

Lemma Index_sep_here (c : ascii) (s : string) :
  Index (String c s) "=" =
    if ascii_dec "="%char c then Some 0 else S <$> Index s "=".
Proof.
  rewrite Index_cons, prefix_cons, prefix_nil.
  by destruct (ascii_dec "=" c).
Qed.

(** The first [=] of [k=v] is the one after [k], when [k] has none. *)
Lemma Index_app_first (k v : string) :
  Index k "=" = None → Index (k +:+ "=" +:+ v) "=" = Some (String.length k).
Proof.
  induction k as [|c k IH]; intros Hk.
  - rewrite append_nil, append_cons, Index_sep_here.
    by destruct (ascii_dec "=" "=").
  - rewrite Index_sep_here in Hk. rewrite append_cons, Index_sep_here.
    destruct (ascii_dec "=" c); [done|].
    destruct (Index k "=") eqn:E; [done|]. by rewrite IH.
Qed.

Lemma SplitN2_first (k v : string) :
  Index k "=" = None → SplitN2 (k +:+ "=" +:+ v) "=" = [k; v].
Proof.
  intros Hk. unfold SplitN2. rewrite (Index_app_first _ _ Hk).
  by rewrite first_app, skip_add, skip_app.
Qed.

Lemma SplitN2_none (s : string) :
  Index s "=" = None → SplitN2 s "=" = [s].
Proof. intros Hs. unfold SplitN2. by rewrite Hs. Qed.

Lemma SplitN2_length (s sep : string) :
  1 ≤ length (SplitN2 s sep) ≤ 2.
Proof. unfold SplitN2. destruct (Index s sep); simpl; lia. Qed.

End strings_facts.

Import strings strings_facts.

(** ** The classifier *)

Section Classifier.
Implicit Types (args : list string) (i : nat).

Lemma findImagePosition_from_end args i :
  length args ≤ i → findImagePosition_from args i = Done (-1)%Z.
Proof.
  intros Hi. rewrite findImagePosition_from_equation_1.
  destruct (decide (i < length args)) as [Hlt|Hge]; [lia|].
  by rewrite findImagePosition_from_clause_1_equation_2.
Qed.

Lemma findImagePosition_from_at args i arg :
  args !! i = Some arg →
  findImagePosition_from args i =
    if negb (HasPrefix arg "-") then Done (Z.of_nat i)
    else if Contains arg "=" then findImagePosition_from args (i + 1)
    else if takesValue arg then findImagePosition_from args (i + 2)
    else findImagePosition_from args (i + 1).
Proof.
  intros Harg. pose proof (lookup_lt_Some _ _ _ Harg) as Hlt.
  rewrite findImagePosition_from_equation_1.
  destruct (decide (i < length args)) as [Hlt'|]; [|lia].
  rewrite findImagePosition_from_clause_1_equation_1.
  unfold index. rewrite Harg.
  by rewrite findImagePosition_from_clause_1_clause_2_equation_1.
Qed.

Lemma segment_empty args i : segment args i i = [].
Proof. unfold segment. apply drop_ge. rewrite length_take. lia. Qed.

Lemma segment_cons args i p arg :
  args !! i = Some arg → i < p →
  segment args i p = arg :: segment args (i + 1) p.
Proof.
  intros Harg Hlt. unfold segment.
  rewrite Nat.add_1_r. apply drop_S. by rewrite lookup_take_lt.
Qed.

Lemma drop_cons_inv args i x rest :
  drop i args = x :: rest → args !! i = Some x ∧ drop (i + 1) args = rest.
Proof.
  intros H. assert (args !! i = Some x) as Hx.
  { rewrite <- (Nat.add_0_r i), <- lookup_drop. by rewrite H. }
  split; [done|]. rewrite Nat.add_1_r.
  rewrite (drop_S _ _ _ Hx) in H. congruence.
Qed.

(** Soundness of the walk, by induction on the distance to the end: the
    loop never panics, and a position it returns is the index of a non-flag
    token that only complete options precede. *)
Lemma findImagePosition_from_sound args n : ∀ i,
  length args - i ≤ n →
  ∃ z, findImagePosition_from args i = Done z ∧
    (z = (-1)%Z ∨
     ∃ p tok, z = Z.of_nat p ∧ i ≤ p ∧ args !! p = Some tok ∧
              HasPrefix tok "-" = false ∧ Options (segment args i p)).
Proof.
  induction n as [|n IH]; intros i Hn.
  { exists (-1)%Z. split; [apply findImagePosition_from_end; lia | by left]. }
  destruct (args !! i) as [arg|] eqn:Harg; last first.
  { apply lookup_ge_None in Harg. exists (-1)%Z.
    split; [by apply findImagePosition_from_end | by left]. }
  pose proof (lookup_lt_Some _ _ _ Harg) as Hlt.
  rewrite (findImagePosition_from_at _ _ _ Harg).
  destruct (HasPrefix arg "-") eqn:Hflag; simpl; last first.
  { exists (Z.of_nat i). split; [done|]. right. exists i, arg.
    rewrite segment_empty. repeat split; [lia|done..| constructor]. }
  destruct (Contains arg "=") eqn:Heq.
  { destruct (IH (i + 1)) as (z & -> & Hz); [lia|].
    exists z. split; [done|].
    destruct Hz as [->|(p & tok & -> & Hp & Htok & Hnf & Hopt)]; [by left|].
    right. exists p, tok. repeat split; [lia|done..|].
    rewrite (segment_cons _ _ _ _ Harg) by lia. by apply Options_inline. }
  destruct (takesValue arg) eqn:Hval.
  - destruct (IH (i + 2)) as (z & -> & Hz); [lia|].
    exists z. split; [done|].
    destruct Hz as [->|(p & tok & -> & Hp & Htok & Hnf & Hopt)]; [by left|].
    right. exists p, tok. repeat split; [lia|done..|].
    destruct (args !! (i + 1)) as [v|] eqn:Hv; last first.
    { apply lookup_ge_None in Hv. apply lookup_lt_Some in Htok. lia. }
    rewrite (segment_cons _ _ _ _ Harg) by lia.
    rewrite (segment_cons _ _ _ _ Hv) by lia.
    replace (i + 1 + 1) with (i + 2) by lia. by apply Options_value.
  - destruct (IH (i + 1)) as (z & -> & Hz); [lia|].
    exists z. split; [done|].
    destruct Hz as [->|(p & tok & -> & Hp & Htok & Hnf & Hopt)]; [by left|].
    right. exists p, tok. repeat split; [lia|done..|].
    rewrite (segment_cons _ _ _ _ Harg) by lia. by apply Options_bool.
Qed.

Lemma findImagePosition_sound args :
  ∃ z, findImagePosition args = Done z ∧
    (z = (-1)%Z ∨
     ∃ p tok, z = Z.of_nat p ∧ args !! p = Some tok ∧
              HasPrefix tok "-" = false ∧ Options (take p args)).
Proof.
  destruct (findImagePosition_from_sound args (length args) 0 ltac:(lia))
    as (z & Hz & Hpos).
  exists z. split; [done|].
  destruct Hpos as [->|(p & tok & -> & _ & Htok & Hnf & Hopt)]; [by left|].
  right. exists p, tok. unfold segment in Hopt. by rewrite drop_0 in Hopt.
Qed.

(** Completeness: a run of complete options is skipped as a whole. *)
Lemma findImagePosition_from_skip pre : Options pre →
  ∀ args i rest, drop i args = pre ++ rest →
    findImagePosition_from args i
    = findImagePosition_from args (i + length pre).
Proof.
  induction 1 as [|f rest' Hf Heq _ IH|f v rest' Hf Heq Hv _ IH
                 |f rest' Hf Heq Hv _ IH]; intros args i rest Hdrop.
  - simpl. by rewrite Nat.add_0_r.
  - apply drop_cons_inv in Hdrop as [Harg Hdrop].
    rewrite (findImagePosition_from_at _ _ _ Harg), Hf, Heq. simpl.
    rewrite (IH _ _ _ Hdrop). f_equal. lia.
  - apply drop_cons_inv in Hdrop as [Harg Hdrop].
    apply drop_cons_inv in Hdrop as [_ Hdrop].
    rewrite (findImagePosition_from_at _ _ _ Harg), Hf, Heq, Hv. simpl.
    replace (i + 2) with (i + 1 + 1) by lia.
    rewrite (IH _ _ _ Hdrop). f_equal. lia.
  - apply drop_cons_inv in Hdrop as [Harg Hdrop].
    rewrite (findImagePosition_from_at _ _ _ Harg), Hf, Heq, Hv. simpl.
    rewrite (IH _ _ _ Hdrop). f_equal. lia.
Qed.

Lemma findImagePosition_OnlyFlags args :
  OnlyFlags args → findImagePosition args = Done (-1)%Z.
Proof.
  unfold findImagePosition.
  intros [l Hl|l f Hl Hf Heq Hv].
  - rewrite (findImagePosition_from_skip l Hl l 0 []); [|by rewrite app_nil_r].
    by apply findImagePosition_from_end.
  - rewrite (findImagePosition_from_skip l Hl (l ++ [f]) 0 [f]); [|done].
    simpl. rewrite (findImagePosition_from_at _ _ f).
    2: { by rewrite lookup_app_r, Nat.sub_diag. }
    rewrite Hf, Heq, Hv. simpl. apply findImagePosition_from_end.
    rewrite length_app. simpl. lia.
Qed.

Lemma findImagePosition_image pre img rest :
  Options pre → HasPrefix img "-" = false →
  findImagePosition (pre ++ img :: rest) = Done (Z.of_nat (length pre)).
Proof.
  intros Hpre Himg. unfold findImagePosition.
  rewrite (findImagePosition_from_skip pre Hpre _ 0 (img :: rest)); [|done].
  simpl. rewrite (findImagePosition_from_at _ _ img).
  2: { by rewrite lookup_app_r, Nat.sub_diag. }
  by rewrite Himg.
Qed.

Lemma findImagePosition_all_flags args :
  Forall (λ tok, HasPrefix tok "-" = true) args →
  findImagePosition args = Done (-1)%Z.
Proof.
  intros Hall. destruct (findImagePosition_sound args) as (z & Hz & Hpos).
  rewrite Hz. destruct Hpos as [->|(p & tok & _ & Htok & Hnf & _)]; [done|].
  rewrite Forall_lookup in Hall. specialize (Hall _ _ Htok). congruence.
Qed.

End Classifier.

(** ** The extractor *)

Section Extractor.
Implicit Types (args : list string) (i : nat) (result : gmap string string).

(** The tail of the loop body never panics: it adds what [override] says. *)
Lemma recordEnvVal_override payload result :
  recordEnvVal payload result = Done (override payload result).
Proof.
  unfold recordEnvVal, override, splitFirst, SplitN2.
  destruct (decide (payload ≠ "")) as [Hne|Hempty];
    destruct (decide (payload = "")) as [Heq|Hne']; try done.
  destruct (Index payload "=") as [m|]; simpl; done.
Qed.

Lemma extractUserEnvVars_from_end args i result :
  length args ≤ i → extractUserEnvVars_from args i result = Done result.
Proof.
  intros Hi. rewrite extractUserEnvVars_from_equation_1.
  destruct (decide (i < length args)) as [Hlt|Hge]; [lia|].
  by rewrite extractUserEnvVars_from_clause_1_equation_2.
Qed.

(** One turn of the loop with the cursor on [arg]. *)
Lemma extractUserEnvVars_from_at args i arg result :
  args !! i = Some arg →
  extractUserEnvVars_from args i result =
    if decide (arg = "-e" ∨ arg = "--env") then
      match args !! (i + 1) with
      | Some payload =>
          extractUserEnvVars_from args (i + 2) (override payload result)
      | None => extractUserEnvVars_from args (i + 1) result
      end
    else if HasPrefix arg "-e=" then
      extractUserEnvVars_from args (i + 1)
        (override (TrimPrefix arg "-e=") result)
    else if HasPrefix arg "--env=" then
      extractUserEnvVars_from args (i + 1)
        (override (TrimPrefix arg "--env=") result)
    else extractUserEnvVars_from args (i + 1) result.
Proof.
  intros Harg. pose proof (lookup_lt_Some _ _ _ Harg) as Hlt.
  rewrite extractUserEnvVars_from_equation_1.
  destruct (decide (i < length args)) as [Hlt'|]; [|lia].
  rewrite extractUserEnvVars_from_clause_1_equation_1.
  unfold index at 1. rewrite Harg.
  rewrite extractUserEnvVars_from_clause_1_clause_2_equation_1.
  rewrite !recordEnvVal_override.
  destruct (decide (arg = "-e" ∨ arg = "--env")) as [Hflag|Hflag]; [|done].
  destruct (decide (i + 1 < length args)) as [Hnext|Hnext].
  - destruct (lookup_lt_is_Some_2 args (i + 1) Hnext) as [payload Hp].
    unfold index. rewrite Hp, recordEnvVal_override.
    by replace (i + 1 + 1) with (i + 2) by lia.
  - rewrite (lookup_ge_None_2 args (i + 1)) by lia. done.
Qed.

(** The loop computes the override set of the payloads ahead of the cursor. *)
Lemma extractUserEnvVars_from_payloads args n : ∀ i result,
  length args - i ≤ n →
  extractUserEnvVars_from args i result
  = Done (foldl (λ m payload, override payload m) result
                (envPayloads (drop i args))).
Proof.
  induction n as [|n IH]; intros i result Hn.
  { rewrite extractUserEnvVars_from_end, drop_ge by lia. done. }
  destruct (args !! i) as [arg|] eqn:Harg; last first.
  { apply lookup_ge_None in Harg.
    rewrite extractUserEnvVars_from_end, drop_ge by lia. done. }
  pose proof (lookup_lt_Some _ _ _ Harg) as Hlt.
  rewrite (extractUserEnvVars_from_at _ _ _ _ Harg).
  rewrite (drop_S _ _ _ Harg). simpl.
  destruct (decide (arg = "-e" ∨ arg = "--env")) as [Hflag|Hflag].
  { destruct (args !! (i + 1)) as [payload|] eqn:Hp.
    - rewrite Nat.add_1_r in Hp. rewrite (drop_S _ _ _ Hp). simpl.
      replace (i + 2) with (S (S i)) by lia. by rewrite IH by lia.
    - apply lookup_ge_None in Hp. rewrite (drop_ge _ (S i)) by lia.
      by rewrite extractUserEnvVars_from_end by lia. }
  replace (S i) with (i + 1) by lia.
  destruct (HasPrefix arg "-e="); [by rewrite IH by lia|].
  destruct (HasPrefix arg "--env="); by rewrite IH by lia.
Qed.

Lemma extractUserEnvVars_payloads args :
  extractUserEnvVars args = Done (overridesOf (envPayloads args)).
Proof.
  unfold extractUserEnvVars, overridesOf.
  by rewrite (extractUserEnvVars_from_payloads args (length args)) by lia.
Qed.

Lemma splitFirst_pair (k v : string) :
  Index k "=" = None → splitFirst (k +:+ "=" +:+ v) = (k, v).
Proof.
  intros Hk. unfold splitFirst. rewrite (Index_app_first _ _ Hk).
  by rewrite first_app, skip_add, skip_app.
Qed.

Lemma splitFirst_bare (k : string) :
  Index k "=" = None → splitFirst k = (k, "").
Proof. intros Hk. unfold splitFirst. by rewrite Hk. Qed.

Lemma foldl_override_keep (k v : string) (later : list string) : ∀ m,
  m !! k = Some v →
  Forall (λ q, q = "" ∨ (splitFirst q).1 ≠ k) later →
  foldl (λ m payload, override payload m) m later !! k = Some v.
Proof.
  induction later as [|q later IH]; intros m Hm Hlater; [done|].
  apply Forall_cons in Hlater as [Hq Hlater]. simpl. apply IH; [|done].
  unfold override. destruct (decide (q = "")) as [|Hne]; [done|].
  destruct Hq as [|Hq]; [done|]. by rewrite lookup_insert_ne.
Qed.

(** The value of a key is the one of its last payload. *)
Lemma overridesOf_last_wins (earlier later : list string) (p : string) :
  p ≠ "" →
  Forall (λ q, q = "" ∨ (splitFirst q).1 ≠ (splitFirst p).1) later →
  overridesOf (earlier ++ p :: later) !! (splitFirst p).1
  = Some (splitFirst p).2.
Proof.
  intros Hp Hlater. unfold overridesOf. rewrite foldl_app. simpl.
  apply foldl_override_keep; [|done].
  unfold override at 1. rewrite decide_False by done.
  apply lookup_insert_eq.
Qed.

End Extractor.

(** ** The builder *)

Lemma filter_map_to_list (P : string * string → Prop)
    `{!∀ kv, Decision (P kv)} (m : gmap string string) :
  filter P (map_to_list m) ≡ₚ map_to_list (filter P m).
Proof.
  apply NoDup_Permutation.
  - apply NoDup_filter, NoDup_map_to_list.
  - apply NoDup_map_to_list.
  - intros [k v]. rewrite list_elem_of_filter, !elem_of_map_to_list.
    rewrite map_lookup_filter_Some. tauto.
Qed.

Lemma insert_alter_same (g : string → string) (f y : string)
    (m : gmap string string) :
  <[f := y]> (alter g f m) = <[f := y]> m.
Proof.
  apply map_eq. intros j. destruct (decide (f = j)) as [->|Hne].
  - by rewrite !lookup_insert_eq.
  - by rewrite !lookup_insert_ne, lookup_alter_ne by done.
Qed.

Lemma foldl_inject (ov : gmap string string) kvs : ∀ acc,
  foldl (λ newArgs '(k, v),
           if decide (ov !! k = None)
           then newArgs ++ ["-e"; Sprintf_kv k v] else newArgs) acc kvs
  = acc ++ envFlags (filter (λ kv, ov !! kv.1 = None) kvs).
Proof.
  induction kvs as [|[k v] kvs IH]; intros acc; simpl.
  - by rewrite app_nil_r.
  - rewrite IH. rewrite filter_cons. simpl.
    destruct (decide (ov !! k = None)); [|done].
    by rewrite <- app_assoc.
Qed.

Lemma foldl_inject_all kvs : ∀ acc,
  foldl (λ newArgs '(k, v), newArgs ++ ["-e"; Sprintf_kv k v]) acc kvs
  = acc ++ envFlags kvs.
Proof.
  induction kvs as [|[k v] kvs IH]; intros acc; simpl.
  - by rewrite app_nil_r.
  - rewrite IH. by rewrite <- app_assoc.
Qed.

Lemma envFlags_length kvs : length (envFlags kvs) = 2 * length kvs.
Proof. induction kvs as [|[k v] kvs IH]; simpl; lia. Qed.

Lemma isComposeRun_run opts rest :
  DockerArgs opts = "run" :: rest → isComposeRun opts = Done true.
Proof. intros H. unfold isComposeRun. rewrite H. reflexivity. Qed.

Lemma isComposeRun_other opts :
  head (DockerArgs opts) ≠ Some "run" → isComposeRun opts = Done false.
Proof.
  intros H. unfold isComposeRun.
  destruct (DockerArgs opts) as [|a0 rest]; [done|].
  simpl in *. rewrite bool_decide_eq_false_2; [done | congruence].
Qed.

(** The loop that writes the env file, started after [before]. *)
Lemma foldl_writeLine_acc envFile kvs : ∀ (before : Go unit) w,
  foldl (writeLine envFile) before kvs w
  = match before w with
    | Done (_, w1) => foldl (writeLine envFile) (mret ()) kvs w1
    | Panic => Panic
    end.
Proof.
  induction kvs as [|[k v] kvs IH]; intros before w; cbn [foldl].
  - by destruct (before w) as [[[] w1]|].
  - rewrite IH. unfold writeLine at 1. unfold mbind at 1 2, Go_bind.
    destruct (before w) as [[[] w1]|]; [|done].
    rewrite (IH (writeLine envFile (mret ()) (k, v))).
    reflexivity.
Qed.

(** One write, whatever the host answers: the file grows by what was
    stored, and the loop goes on. *)
Lemma writeLine_step envFile k v w :
  writeLine envFile (mret ()) (k, v) w
  = Done ((),
          withFiles
            (alter (λ old, old +:+
                      match shortWrite w (writes w) with
                      | None => Sprintf_kv_nl k v
                      | Some n => strings.first n (Sprintf_kv_nl k v)
                      end) envFile (files w))
            (afterWrite w)).
Proof.
  unfold writeLine, mbind, Go_bind, mret, Go_ret, Fprintf. simpl.
  by destruct (shortWrite w (writes w)).
Qed.

Lemma envFileText_cons k v kvs :
  envFileText ((k, v) :: kvs) = Sprintf_kv_nl k v +:+ envFileText kvs.
Proof.
  unfold Sprintf_kv_nl. simpl. by rewrite !append_assoc.
Qed.

(** When no write is short, the loop leaves the whole text in the file. *)
Lemma foldl_writeLine_complete envFile kvs : ∀ w old,
  files w !! envFile = Some old →
  (∀ j, j < length kvs → shortWrite w (writes w + j) = None) →
  foldl (writeLine envFile) (mret ()) kvs w
  = Done ((), afterWrites w envFile (old +:+ envFileText kvs) (length kvs)).
Proof.
  induction kvs as [|[k v] kvs IH]; intros w old Hold Hfull.
  - simpl. unfold mret, Go_ret, afterWrites. do 2 f_equal.
    rewrite append_empty_r, Nat.add_0_r, insert_id by done. by destruct w.
  - cbn [foldl]. rewrite foldl_writeLine_acc, writeLine_step.
    assert (shortWrite w (writes w) = None) as ->.
    { rewrite <- (Nat.add_0_r (writes w)). apply Hfull. simpl. lia. }
    rewrite envFileText_cons. erewrite IH.
    + do 2 f_equal. unfold afterWrites, withFiles, afterWrite.
      cbn [files writes launched tempFile shortWrite exitStatus length].
      rewrite insert_alter_same, append_assoc.
      f_equal. lia.
    + simpl. by rewrite lookup_alter_eq, Hold.
    + intros j Hj. simpl. rewrite <- Nat.add_succ_r. apply Hfull. simpl. lia.
Qed.

(** * The claims of the specification *)

(** C3. The classifier walks the tokens left to right from index 0: at a
    token that does not start with [-] it returns the cursor; it advances by
    one past a flag containing [=]; by two past a flag that the arity table
    [flagsWithValue] lists as value-consuming (so the token after it is never
    inspected, even if it looks like a flag); by one past any other flag,
    that is every flag the table does not list; it returns absent ([-1])
    when the cursor reaches the end, in particular for the empty sequence
    and for every sequence made of flags only. The closed cases are those
    of the repository's test of the function, and some with flags that the
    table does not list. *)
Theorem findImagePosition_walk (args : list string) :
  findImagePosition args = findImagePosition_from args 0 ∧
  (∀ i arg, args !! i = Some arg →
     (HasPrefix arg "-" = false →
        findImagePosition_from args i = Done (Z.of_nat i)) ∧
     (HasPrefix arg "-" = true → Contains arg "=" = true →
        findImagePosition_from args i = findImagePosition_from args (i + 1)) ∧
     (HasPrefix arg "-" = true → Contains arg "=" = false →
      flagsWithValue !! arg = Some true →
        findImagePosition_from args i = findImagePosition_from args (i + 2)) ∧
     (HasPrefix arg "-" = true → Contains arg "=" = false →
      flagsWithValue !! arg ≠ Some true →
        findImagePosition_from args i = findImagePosition_from args (i + 1))) ∧
  (∀ i, length args ≤ i → findImagePosition_from args i = Done (-1)%Z) ∧
  (args = [] → findImagePosition args = Done (-1)%Z) ∧
  (Forall (λ tok, HasPrefix tok "-" = true) args →
     findImagePosition args = Done (-1)%Z) ∧
  (OnlyFlags args → findImagePosition args = Done (-1)%Z) ∧
  (flagsWithValue !! "-p" = Some true ∧ flagsWithValue !! "-e" = Some true ∧
   flagsWithValue !! "--name" = Some true ∧
   flagsWithValue !! "-d" = None ∧ flagsWithValue !! "--rm" = None ∧
   flagsWithValue !! "-it" = None ∧ flagsWithValue !! "--privileged" = None) ∧
  (findImagePosition ["alpine"] = Done 0%Z ∧
   findImagePosition ["-p"; "8080:8080"; "myapp:latest"] = Done 2%Z ∧
   findImagePosition
     ["-d"; "--rm"; "-p"; "80:80"; "-v"; "/data:/data"; "nginx"] = Done 6%Z ∧
   findImagePosition ["-e"; "FOO=bar"; "alpine"] = Done 2%Z ∧
   findImagePosition ["--name"; "mycontainer"; "alpine"] = Done 2%Z ∧
   findImagePosition ["--name=mycontainer"; "alpine"] = Done 1%Z ∧
   findImagePosition ["alpine"; "echo"; "hello"] = Done 0%Z ∧
   findImagePosition [] = Done (-1)%Z ∧
   findImagePosition ["-d"; "--rm"] = Done (-1)%Z ∧
   findImagePosition
     ["-d"; "--name"; "web"; "-p"; "80:80"; "-v"; "/var/www:/www";
      "--restart"; "always"; "nginx:alpine"] = Done 9%Z ∧
   findImagePosition ["-e=FOO=bar"; "alpine"] = Done 1%Z ∧
   findImagePosition ["-e"; "A=1"; "-e"; "B=2"; "-e"; "C=3"; "myimage"]
   = Done 6%Z) ∧
  (findImagePosition ["--rm"; "alpine"; "echo"] = Done 1%Z ∧
   findImagePosition ["-d"; "alpine"; "sh"] = Done 1%Z ∧
   findImagePosition ["-it"; "--privileged"; "ubuntu"; "bash"] = Done 2%Z ∧
   findImagePosition ["-p"; "8080:8080"] = Done (-1)%Z ∧
   findImagePosition ["-p"] = Done (-1)%Z ∧
   findImagePosition ["-e"; "--rm"; "alpine"] = Done 2%Z ∧
   findImagePosition ["-p"; "-d"; "alpine"; "sh"] = Done 2%Z).
Proof.
  split; [done|]. split.
  { intros i arg Harg. rewrite (findImagePosition_from_at _ _ _ Harg).
    unfold takesValue. repeat split.
    - by intros ->.
    - by intros -> ->.
    - by intros -> -> ->.
    - intros -> -> Hunlisted. simpl.
      by destruct (flagsWithValue !! arg) as [[|]|]. }
  split; [apply findImagePosition_from_end|].
  split; [by intros ->|].
  split; [apply findImagePosition_all_flags|].
  split; [apply findImagePosition_OnlyFlags|].
  split; [repeat split; vm_compute; reflexivity|].
  split; repeat split; vm_compute; reflexivity.
Qed.

Lemma findImagePosition_walk_witness :
  ["--rm"; "alpine"; "echo"] !! 0 = Some "--rm" ∧
  HasPrefix "--rm" "-" = true ∧ Contains "--rm" "=" = false ∧
  flagsWithValue !! "--rm" ≠ Some true ∧
  findImagePosition_from ["--rm"; "alpine"; "echo"] 0
  = findImagePosition_from ["--rm"; "alpine"; "echo"] (0 + 1) ∧
  findImagePosition_from ["--rm"; "alpine"; "echo"] (0 + 1) = Done 1%Z.
Proof.
  assert (["--rm"; "alpine"; "echo"] !! 0 = Some "--rm") as Harg
    by reflexivity.
  assert (HasPrefix "--rm" "-" = true) as Hflag by reflexivity.
  assert (Contains "--rm" "=" = false) as Heq by reflexivity.
  assert (flagsWithValue !! "--rm" ≠ Some true) as Hunlisted.
  { intros H. vm_compute in H. discriminate H. }
  assert (["--rm"; "alpine"; "echo"] !! (0 + 1) = Some "alpine") as Himg
    by reflexivity.
  refine (conj Harg (conj Hflag (conj Heq (conj Hunlisted (conj _ _))))).
  - exact (proj2 (proj2 (proj2 (proj1 (proj2
      (findImagePosition_walk ["--rm"; "alpine"; "echo"]))
      0 "--rm" Harg))) Hflag Heq Hunlisted).
  - exact (proj1 (proj1 (proj2
      (findImagePosition_walk ["--rm"; "alpine"; "echo"]))
      (0 + 1) "alpine" Himg) eq_refl).
Defined.

(** C4. Whenever the classifier returns a present position, that position
    is a valid index, the token there does not start with [-], and the
    tokens before it are a run of complete options: each is a flag or the
    value consumed by the value-consuming flag just before it. So the token
    at the position is the first one that is neither. A sequence beginning
    with a non-flag token has position 0. *)
Theorem findImagePosition_present (args : list string) (z : Z) :
  findImagePosition args = Done z →
  (z = (-1)%Z ∨
   ∃ p image, z = Z.of_nat p ∧ p < length args ∧ args !! p = Some image ∧
              HasPrefix image "-" = false ∧ Options (take p args)) ∧
  ((0 ≤ z)%Z → (Z.to_nat z < length args) ∧
     ∀ pre image rest, args = pre ++ image :: rest → Options pre →
       HasPrefix image "-" = false → z = Z.of_nat (length pre)) ∧
  (∀ image rest, args = image :: rest → HasPrefix image "-" = false →
     z = 0%Z).
Proof.
  intros Hz. destruct (findImagePosition_sound args) as (z' & Hz' & Hpos).
  assert (z' = z) as -> by congruence. split; [|split].
  - destruct Hpos as [->|(p & image & -> & Himg & Hnf & Hopt)]; [by left|].
    right. exists p, image. repeat split; try done.
    by eapply lookup_lt_Some.
  - intros Hnonneg. split.
    + destruct Hpos as [->|(p & image & -> & Himg & _)]; [lia|].
      rewrite Nat2Z.id. by eapply lookup_lt_Some.
    + intros pre image rest -> Hpre Hnf.
      rewrite (findImagePosition_image _ _ _ Hpre Hnf) in Hz. congruence.
  - intros image rest -> Hnf.
    pose proof (findImagePosition_image [] image rest Options_nil Hnf) as H0.
    change (findImagePosition (image :: rest) = Done 0%Z) in H0. congruence.
Qed.

Lemma findImagePosition_present_witness :
  findImagePosition ["-d"; "--name"; "test"; "myimage"; "cmd"; "arg"]
  = Done 3%Z ∧
  (3%Z = (-1)%Z ∨
   ∃ p image, 3%Z = Z.of_nat p ∧
     p < length ["-d"; "--name"; "test"; "myimage"; "cmd"; "arg"] ∧
     ["-d"; "--name"; "test"; "myimage"; "cmd"; "arg"] !! p = Some image ∧
     HasPrefix image "-" = false ∧
     Options (take p ["-d"; "--name"; "test"; "myimage"; "cmd"; "arg"])).
Proof.
  assert (findImagePosition ["-d"; "--name"; "test"; "myimage"; "cmd"; "arg"]
          = Done 3%Z) as Hz by (vm_compute; reflexivity).
  split; [exact Hz|].
  exact (proj1 (findImagePosition_present _ _ Hz)).
Defined.

(** C5. The extractor recognizes exactly four forms of environment flag:
    [-e PAYLOAD], [--env PAYLOAD], [-e=PAYLOAD], [--env=PAYLOAD]; every other
    token is passed over. Each of the four forms with payload [FOO=bar]
    yields [{FOO: bar}]. A payload is cut at its first [=] only, a payload
    without [=] is recorded with the empty value, and of several payloads
    with one key the last one gives the value. *)
Theorem extractUserEnvVars_forms :
  (extractUserEnvVars ["-e"; "FOO=bar"] = Done {[ "FOO" := "bar" ]} ∧
   extractUserEnvVars ["--env"; "FOO=bar"] = Done {[ "FOO" := "bar" ]} ∧
   extractUserEnvVars ["-e=FOO=bar"] = Done {[ "FOO" := "bar" ]} ∧
   extractUserEnvVars ["--env=FOO=bar"] = Done {[ "FOO" := "bar" ]}) ∧
  (∀ args, extractUserEnvVars args = Done (overridesOf (envPayloads args))) ∧
  (∀ payload rest,
     envPayloads ("-e" :: payload :: rest) = payload :: envPayloads rest ∧
     envPayloads ("--env" :: payload :: rest) = payload :: envPayloads rest ∧
     envPayloads (("-e=" +:+ payload) :: rest) = payload :: envPayloads rest ∧
     envPayloads (("--env=" +:+ payload) :: rest)
     = payload :: envPayloads rest) ∧
  (∀ tok rest,
     tok ≠ "-e" → tok ≠ "--env" →
     HasPrefix tok "-e=" = false → HasPrefix tok "--env=" = false →
     envPayloads (tok :: rest) = envPayloads rest) ∧
  (∀ k v m, Index k "=" = None →
     override (k +:+ "=" +:+ v) m = <[k := v]> m) ∧
  (∀ k m, k ≠ "" → Index k "=" = None → override k m = <[k := ""]> m) ∧
  (∀ earlier p later,
     p ≠ "" →
     Forall (λ q, q = "" ∨ (splitFirst q).1 ≠ (splitFirst p).1) later →
     overridesOf (earlier ++ p :: later) !! (splitFirst p).1
     = Some (splitFirst p).2) ∧
  extractUserEnvVars ["-e"; "URL=http://example.com?foo=bar"]
  = Done {[ "URL" := "http://example.com?foo=bar" ]} ∧
  extractUserEnvVars ["-e"; "A=1"; "-p"; "80:80"; "--env=A=2"]
  = Done {[ "A" := "2" ]}.
Proof.
  split; [repeat split; vm_compute; reflexivity|].
  split; [apply extractUserEnvVars_payloads|].
  split.
  { intros payload rest. split; [reflexivity|]. split; [reflexivity|].
    split.
    - cbn [envPayloads]. rewrite decide_False.
      + by rewrite HasPrefix_app, TrimPrefix_app.
      + intros [H|H]; discriminate H.
    - cbn [envPayloads]. rewrite decide_False.
      + assert (HasPrefix ("--env=" +:+ payload) "-e=" = false) as ->
          by reflexivity.
        by rewrite HasPrefix_app, TrimPrefix_app.
      + intros [H|H]; discriminate H. }
  split.
  { intros tok rest H1 H2 H3 H4. cbn [envPayloads].
    rewrite decide_False by (intros [?|?]; done). by rewrite H3, H4. }
  split.
  { intros k v m Hk. unfold override. rewrite splitFirst_pair by done.
    rewrite decide_False; [done|]. destruct k; discriminate. }
  split.
  { intros k m Hne Hk. unfold override. rewrite splitFirst_bare by done.
    by rewrite decide_False. }
  split; [intros earlier p later; apply overridesOf_last_wins|].
  split; vm_compute; reflexivity.
Qed.

Lemma extractUserEnvVars_forms_witness :
  "A=2" ≠ "" ∧
  Forall (λ q, q = "" ∨ (splitFirst q).1 ≠ (splitFirst "A=2").1) ["B=3"] ∧
  overridesOf (["A=1"] ++ "A=2" :: ["B=3"]) !! (splitFirst "A=2").1
  = Some (splitFirst "A=2").2.
Proof.
  assert ("A=2" ≠ "") as Hne by discriminate.
  assert (Forall (λ q, q = "" ∨ (splitFirst q).1 ≠ (splitFirst "A=2").1)
                 ["B=3"]) as Hlater.
  { apply Forall_cons. split; [|by apply Forall_nil].
    right. vm_compute. discriminate. }
  refine (conj Hne (conj Hlater _)).
  exact (proj1 (proj2 (proj2 (proj2 (proj2 (proj2 (proj2
    extractUserEnvVars_forms)))))) ["A=1"] "A=2" ["B=3"] Hne Hlater).
Defined.

(** C9. Parsing is total: for every token sequence both loops return a
    result and never read out of bounds, from any cursor. A token that is
    no environment flag is passed over by the extractor, an unknown flag is
    skipped by the classifier as a boolean one, a payload without [=] is
    recorded with the empty value, and an [-e] or [--env] that is the last
    token ends the walk without error. *)
Theorem parsing_total (args : list string) :
  (∃ z, findImagePosition args = Done z ∧ (-1 ≤ z < Z.of_nat (length args))%Z) ∧
  (∃ m, extractUserEnvVars args = Done m) ∧
  (∀ i, ∃ z, findImagePosition_from args i = Done z) ∧
  (∀ i result, ∃ m, extractUserEnvVars_from args i result = Done m) ∧
  (∀ i tok result,
     args !! i = Some tok → tok ≠ "-e" → tok ≠ "--env" →
     HasPrefix tok "-e=" = false → HasPrefix tok "--env=" = false →
     extractUserEnvVars_from args i result
     = extractUserEnvVars_from args (i + 1) result) ∧
  (∀ i tok,
     args !! i = Some tok → HasPrefix tok "-" = true →
     Contains tok "=" = false → takesValue tok = false →
     findImagePosition_from args i = findImagePosition_from args (i + 1)) ∧
  (∀ payload result,
     payload ≠ "" → Index payload "=" = None →
     recordEnvVal payload result = Done (<[payload := ""]> result)) ∧
  (∀ result,
     extractUserEnvVars_from (args ++ ["-e"]) (length args) result
     = Done result ∧
     extractUserEnvVars_from (args ++ ["--env"]) (length args) result
     = Done result).
Proof.
  split.
  { destruct (findImagePosition_sound args) as (z & Hz & Hpos).
    exists z. split; [done|].
    destruct Hpos as [->|(p & tok & -> & Htok & _)]; [lia|].
    apply lookup_lt_Some in Htok. lia. }
  split; [eexists; apply extractUserEnvVars_payloads|].
  split.
  { intros i.
    destruct (findImagePosition_from_sound args (length args - i) i
                ltac:(lia)) as (z & Hz & _).
    by exists z. }
  split.
  { intros i result. eexists.
    by apply (extractUserEnvVars_from_payloads args (length args - i)). }
  split.
  { intros i tok result Htok H1 H2 H3 H4.
    rewrite (extractUserEnvVars_from_at _ _ _ _ Htok).
    rewrite decide_False by (intros [?|?]; done). by rewrite H3, H4. }
  split.
  { intros i tok Htok H1 H2 H3.
    rewrite (findImagePosition_from_at _ _ _ Htok). by rewrite H1, H2, H3. }
  split.
  { intros payload result Hne Hidx. rewrite recordEnvVal_override.
    unfold override. rewrite splitFirst_bare by done.
    by rewrite decide_False. }
  intros result. split.
  - rewrite (extractUserEnvVars_from_at _ _ "-e").
    2: { by rewrite lookup_app_r, Nat.sub_diag. }
    rewrite decide_True by (by left).
    rewrite (lookup_ge_None_2 (args ++ ["-e"])).
    2: { rewrite length_app. simpl. lia. }
    apply extractUserEnvVars_from_end. rewrite length_app. simpl. lia.
  - rewrite (extractUserEnvVars_from_at _ _ "--env").
    2: { by rewrite lookup_app_r, Nat.sub_diag. }
    rewrite decide_True by (by right).
    rewrite (lookup_ge_None_2 (args ++ ["--env"])).
    2: { rewrite length_app. simpl. lia. }
    apply extractUserEnvVars_from_end. rewrite length_app. simpl. lia.
Qed.

Lemma parsing_total_witness :
  "PATH" ≠ "" ∧ Index "PATH" "=" = None ∧
  recordEnvVal "PATH" ∅ = Done (<["PATH" := ""]> ∅).
Proof.
  assert ("PATH" ≠ "") as Hne by discriminate.
  assert (Index "PATH" "=" = None) as Hidx by reflexivity.
  refine (conj Hne (conj Hidx _)).
  exact (proj1 (proj2 (proj2 (proj2 (proj2 (proj2 (proj2
    (parsing_total ["-e"; "PATH"]))))))) "PATH" ∅ Hne Hidx).
Defined.

(** ** Run mode *)

Section RunMode.
Variable range : gmap string string → list (string * string).
Hypothesis range_perm : ∀ m, range m ≡ₚ map_to_list m.

Lemma injectSecrets_envFlags secrets ov acc :
  injectSecrets range secrets ov acc
  = acc ++ envFlags (filter (λ kv, ov !! kv.1 = None) (range secrets)).
Proof. apply foldl_inject. Qed.

Lemma injected_effective secrets ov :
  filter (λ kv, ov !! kv.1 = None) (range secrets)
  ≡ₚ map_to_list (effectiveInjectionSet secrets ov).
Proof. rewrite (range_perm secrets). apply filter_map_to_list. Qed.

(** What [runDockerRun] builds, in terms of its two parsers. *)
Lemma runDockerRun_newArgs_shape opts secrets :
  ∃ ov z,
    extractUserEnvVars (DockerArgs opts) = Done ov ∧
    findImagePosition (DockerArgs opts) = Done z ∧
    runDockerRun_newArgs range opts secrets
    = Done (runVector (DockerCommand opts) (DockerArgs opts) z
              (envFlags (filter (λ kv, ov !! kv.1 = None) (range secrets)))) ∧
    (z = (-1)%Z ∨
     ∃ image, (0 ≤ z)%Z ∧ DockerArgs opts !! Z.to_nat z = Some image).
Proof.
  unfold runDockerRun_newArgs, runVector.
  rewrite extractUserEnvVars_payloads.
  destruct (findImagePosition_sound (DockerArgs opts)) as (z & Hz & Hpos).
  eexists _, z. split; [done|]. split; [done|].
  rewrite Hz. simpl.
  destruct Hpos as [->|(p & tok & -> & Htok & _)].
  - split; [|by left]. rewrite !decide_False by lia.
    by rewrite injectSecrets_envFlags.
  - pose proof (lookup_lt_Some _ _ _ Htok) as Hlt.
    rewrite Nat2Z.id. split.
    + rewrite !decide_True by lia. unfold slice_to, slice_from.
      rewrite !decide_True by lia. simpl.
      rewrite injectSecrets_envFlags. by rewrite <- !app_assoc.
    + right. exists tok. split; [lia | done].
Qed.

(** C1. Run mode. The vector handed to the runner is the subcommand, the
    caller's tokens before the image, the injected [-e KEY=VALUE] pairs of
    the effective injection set, and the caller's tokens from the image on;
    without an image it is the subcommand, the injected pairs and all the
    caller's tokens. The runner gets a nil environment map. The pairs are
    written out token by token in [envFlags]; two closed invocations, one
    with an image and one without, show the vectors in full. *)
Theorem runDockerRun_argument_vector :
  (∀ (opts : DockerOptions) (secrets : gmap string string) (w : World),
  ∃ overrides z injected,
    extractUserEnvVars (DockerArgs opts) = Done overrides ∧
    findImagePosition (DockerArgs opts) = Done z ∧
    injected ≡ₚ map_to_list (effectiveInjectionSet secrets overrides) ∧
    let argv := runVector (DockerCommand opts) (DockerArgs opts) z
                  (envFlags injected) in
    runDockerRun range opts secrets w
    = Done (exitStatus w,
            afterCall w {| cmd_name := "docker"; cmd_args := argv;
                           cmd_env := None; cmd_files := files w |}) ∧
    ((0 ≤ z)%Z →
       ∃ image, DockerArgs opts !! Z.to_nat z = Some image ∧
         take (1 + Z.to_nat z) argv
         = DockerCommand opts :: take (Z.to_nat z) (DockerArgs opts) ∧
         take (length (envFlags injected)) (drop (1 + Z.to_nat z) argv)
         = envFlags injected ∧
         drop (1 + Z.to_nat z + length (envFlags injected)) argv
         = drop (Z.to_nat z) (DockerArgs opts) ∧
         argv !! (1 + Z.to_nat z + length (envFlags injected)) = Some image) ∧
    ((z < 0)%Z →
       argv = [DockerCommand opts] ++ envFlags injected ++ DockerArgs opts)) ∧
  (∀ w : World,
     runDockerRun range optsRunPort secretsOne w
     = Done (exitStatus w,
             afterCall w
               {| cmd_name := "docker";
                  cmd_args := ["run"; "-p"; "8080:8080"; "-e"; "A=1";
                               "myapp:latest"; "serve"];
                  cmd_env := None; cmd_files := files w |})) ∧
  (∀ w : World,
     runDockerRun range optsRunNoImage secretsOne w
     = Done (exitStatus w,
             afterCall w
               {| cmd_name := "docker";
                  cmd_args := ["run"; "-e"; "A=1"; "-d"; "--rm"];
                  cmd_env := None; cmd_files := files w |})).
Proof.
  assert (range secretsOne = [("A", "1")]) as Hrange.
  { apply Permutation_singleton_r. rewrite (range_perm secretsOne).
    vm_compute. reflexivity. }
  split; [|split].
  2: { intros w. unfold runDockerRun, runDockerRun_newArgs, injectSecrets.
       rewrite Hrange. vm_compute. reflexivity. }
  2: { intros w. unfold runDockerRun, runDockerRun_newArgs, injectSecrets.
       rewrite Hrange. vm_compute. reflexivity. }
  intros opts secrets w.
  destruct (runDockerRun_newArgs_shape opts secrets)
    as (ov & z & Hov & Hz & Hargs & Hpos).
  exists ov, z, (filter (λ kv, ov !! kv.1 = None) (range secrets)).
  split; [done|]. split; [done|]. split; [apply injected_effective|].
  cbv zeta. split; [|split].
  - unfold runDockerRun, mbind, Go_bind, lift. by rewrite Hargs.
  - intros Hnonneg. destruct Hpos as [->|(image & _ & Himg)]; [lia|].
    exists image. split; [done|].
    pose proof (lookup_lt_Some _ _ _ Himg) as Hlt.
    unfold runVector. rewrite decide_True by done.
    set (p := Z.to_nat z) in *. set (args := DockerArgs opts) in *.
    set (flags := envFlags _).
    assert (length (DockerCommand opts :: take p args) = 1 + p) as Hlen.
    { simpl. rewrite length_take. lia. }
    change ([DockerCommand opts] ++ take p args ++ flags ++ drop p args)
      with ((DockerCommand opts :: take p args) ++ flags ++ drop p args).
    split; [by rewrite take_app_length'|].
    split; [by rewrite drop_app_length', take_app_length|].
    rewrite app_assoc.
    assert (length ((DockerCommand opts :: take p args) ++ flags)
            = 1 + p + length flags) as Hlen'.
    { rewrite length_app. lia. }
    split; [by rewrite drop_app_length'|].
    rewrite lookup_app_r by lia. rewrite Hlen', Nat.sub_diag.
    by rewrite lookup_drop, Nat.add_0_r.
  - intros Hneg. unfold runVector. by rewrite decide_False by lia.
Qed.

(** C2. Run-mode precedence. The injected pairs are exactly the secrets
    whose key is no key of the override set, each once. With secrets
    [{API_KEY: v, OTHER: o}] and the caller's [-e API_KEY=user], the vector
    holds one [-e API_KEY=user], one [-e OTHER=o] and no [-e API_KEY=v]. *)
Theorem runDockerRun_precedence :
  (∀ opts secrets, ∃ overrides z injected,
     extractUserEnvVars (DockerArgs opts) = Done overrides ∧
     findImagePosition (DockerArgs opts) = Done z ∧
     runDockerRun_newArgs range opts secrets
     = Done (runVector (DockerCommand opts) (DockerArgs opts) z
               (envFlags injected)) ∧
     NoDup injected ∧
     (∀ k v, (k, v) ∈ injected ↔
             secrets !! k = Some v ∧ k ∉ dom overrides) ∧
     injected ≡ₚ map_to_list (effectiveInjectionSet secrets overrides)) ∧
  extractUserEnvVars (DockerArgs optsRun) = Done {[ "API_KEY" := "user" ]} ∧
  ∃ argv,
    runDockerRun_newArgs range optsRun secretsTwo = Done argv ∧
    argv = ["run"; "-e"; "API_KEY=user"; "-e"; "OTHER=o"; "alpine"] ∧
    countPair "-e" "API_KEY=user" argv = 1 ∧
    countPair "-e" "OTHER=o" argv = 1 ∧
    countPair "-e" "API_KEY=v" argv = 0.
Proof.
  split.
  { intros opts secrets.
    destruct (runDockerRun_newArgs_shape opts secrets)
      as (ov & z & Hov & Hz & Hargs & _).
    exists ov, z, (filter (λ kv, ov !! kv.1 = None) (range secrets)).
    split; [done|]. split; [done|]. split; [done|]. split; [|split].
    - apply NoDup_filter. rewrite (range_perm secrets).
      apply NoDup_map_to_list.
    - intros k v. rewrite list_elem_of_filter, (range_perm secrets).
      rewrite elem_of_map_to_list, not_elem_of_dom. simpl. tauto.
    - apply injected_effective. }
  assert (extractUserEnvVars (DockerArgs optsRun)
          = Done {[ "API_KEY" := "user" ]}) as Hov'
    by (vm_compute; reflexivity).
  split; [exact Hov'|].
  destruct (runDockerRun_newArgs_shape optsRun secretsTwo)
    as (ov & z & Hov & Hz & Hargs & _).
  assert (ov = {[ "API_KEY" := "user" ]}) as -> by congruence.
  assert (z = 2%Z) as ->.
  { assert (findImagePosition (DockerArgs optsRun) = Done 2%Z) as Hz'
      by (vm_compute; reflexivity). congruence. }
  assert (filter (λ kv : string * string,
                    ({[ "API_KEY" := "user" ]} : gmap string string) !! kv.1
                    = None) (range secretsTwo) = [("OTHER", "o")]) as Hinj.
  { apply Permutation_singleton_r. rewrite (range_perm secretsTwo).
    vm_compute. reflexivity. }
  rewrite Hinj in Hargs. eexists. split; [exact Hargs|].
  repeat split; vm_compute; reflexivity.
Qed.

End RunMode.

Lemma runDockerRun_argument_vector_witness :
  (∀ m : gmap string string, map_to_list m ≡ₚ map_to_list m) ∧
  runDockerRun map_to_list optsRunPort secretsOne worldOk
  = Done (None,
          afterCall worldOk
            {| cmd_name := "docker";
               cmd_args := ["run"; "-p"; "8080:8080"; "-e"; "A=1";
                            "myapp:latest"; "serve"];
               cmd_env := None; cmd_files := ∅ |}) ∧
  ∃ overrides z injected,
    extractUserEnvVars (DockerArgs optsRun) = Done overrides ∧
    findImagePosition (DockerArgs optsRun) = Done z ∧
    injected ≡ₚ map_to_list (effectiveInjectionSet secretsTwo overrides) ∧
    runDockerRun map_to_list optsRun secretsTwo worldOk
    = Done (exitStatus worldOk,
            afterCall worldOk
              {| cmd_name := "docker";
                 cmd_args := runVector (DockerCommand optsRun)
                               (DockerArgs optsRun) z (envFlags injected);
                 cmd_env := None; cmd_files := files worldOk |}).
Proof.
  split; [intros m; reflexivity|]. split.
  - exact (proj1 (proj2 (runDockerRun_argument_vector map_to_list
                           (λ m, reflexivity (map_to_list m)))) worldOk).
  - destruct (proj1 (runDockerRun_argument_vector map_to_list
                       (λ m, reflexivity (map_to_list m)))
                optsRun secretsTwo worldOk)
      as (overrides & z & injected & Hov & Hz & Hperm & Hrun & _).
    exists overrides, z, injected.
    exact (conj Hov (conj Hz (conj Hperm Hrun))).
Defined.

Lemma runDockerRun_precedence_witness :
  (∀ m : gmap string string, map_to_list m ≡ₚ map_to_list m) ∧
  extractUserEnvVars (DockerArgs optsRun) = Done {[ "API_KEY" := "user" ]} ∧
  ∃ argv,
    runDockerRun_newArgs map_to_list optsRun secretsTwo = Done argv ∧
    argv = ["run"; "-e"; "API_KEY=user"; "-e"; "OTHER=o"; "alpine"] ∧
    countPair "-e" "API_KEY=user" argv = 1 ∧
    countPair "-e" "OTHER=o" argv = 1 ∧
    countPair "-e" "API_KEY=v" argv = 0.
Proof.
  split; [intros m; reflexivity|].
  exact (proj2 (runDockerRun_precedence map_to_list
                  (λ m, reflexivity (map_to_list m)))).
Defined.

(** ** Compose mode *)

Section ComposeMode.
Variable range : gmap string string → list (string * string).
Hypothesis range_perm : ∀ m, range m ≡ₚ map_to_list m.

Lemma range_length secrets : length (range secrets) = size secrets.
Proof. by rewrite (range_perm secrets), length_map_to_list. Qed.

(** The env-file branch when the host creates the file and stores every
    write in full. *)
Lemma runDockerCompose_env_file_branch opts secrets w path :
  isComposeRun opts = Done false →
  0 < size secrets →
  tempFile w = inl path →
  (∀ j, j < size secrets → shortWrite w (writes w + j) = None) →
  ∃ w',
    runDockerCompose range opts secrets w = Done (exitStatus w, w') ∧
    launched w'
    = launched w ++
      [{| cmd_name := "docker";
          cmd_args := ["compose"; "--env-file"; path] ++ DockerArgs opts;
          cmd_env := None;
          cmd_files := <[path := envFileText (range secrets)]> (files w) |}] ∧
    files w' = delete path (files w).
Proof.
  intros Hrun Hsize Htmp Hfull.
  unfold runDockerCompose. rewrite Hrun.
  unfold mbind at 1. unfold Go_bind, lift. rewrite decide_True by done.
  unfold mbind at 1. unfold Go_bind, CreateTemp. rewrite Htmp.
  unfold mbind at 1. unfold Go_bind.
  erewrite (foldl_writeLine_complete path (range secrets)
              (withFiles (<[path:=""]> (files w)) w) "").
  2: { simpl. apply lookup_insert_eq. }
  2: { intros j Hj. simpl. apply Hfull. by rewrite <- range_length. }
  eexists. split; [reflexivity|]. simpl. split.
  - by rewrite append_nil, insert_insert_eq.
  - by rewrite !delete_insert_eq.
Qed.

(** The host cannot create the temporary file: the operation stops with
    the wrapped error and the runner is not called. *)
Lemma runDockerCompose_create_failure opts secrets w err :
  isComposeRun opts = Done false →
  0 < size secrets →
  tempFile w = inr err →
  runDockerCompose range opts secrets w
  = Done (Some (wrapError "failed to create temp env file: " err), w).
Proof.
  intros Hrun Hsize Htmp.
  unfold runDockerCompose. rewrite Hrun.
  unfold mbind at 1. unfold Go_bind, lift. rewrite decide_True by done.
  unfold mbind at 1. unfold Go_bind, CreateTemp. by rewrite Htmp.
Qed.

(** C6. Compose "run". When the first token after "compose" is "run", the
    vector is "compose", "run", an [-e KEY=VALUE] pair for every secret,
    then the caller's tokens after "run"; the caller's own [-e] flags are
    not consulted. No file is created or written. The pairs are written out
    token by token in [envFlags]; the closed invocation has a secret [A]
    that the caller sets too, and shows both pairs in the vector. *)
Theorem runDockerCompose_run :
  (∀ (opts : DockerOptions) (secrets : gmap string string)
     (rest : list string) (w : World),
  DockerArgs opts = "run" :: rest →
  ∃ w',
    runDockerCompose range opts secrets w = Done (exitStatus w, w') ∧
    launched w'
    = launched w ++
      [{| cmd_name := "docker";
          cmd_args := ["compose"; "run"] ++ envFlags (range secrets) ++ rest;
          cmd_env := None; cmd_files := files w |}] ∧
    range secrets ≡ₚ map_to_list secrets ∧
    files w' = files w ∧ writes w' = writes w) ∧
  (∀ w : World,
     runDockerCompose range optsComposeRun secretsOne w
     = Done (exitStatus w,
             afterCall w
               {| cmd_name := "docker";
                  cmd_args := ["compose"; "run"; "-e"; "A=1";
                               "-e"; "A=mine"; "web"];
                  cmd_env := None; cmd_files := files w |})) ∧
  (∀ w : World,
     runDockerCompose range
       {| EnvName := "development"; EnvFlagSet := true;
          DockerCommand := "compose"; DockerArgs := ["run"] |} secretsOne w
     = Done (exitStatus w,
             afterCall w
               {| cmd_name := "docker";
                  cmd_args := ["compose"; "run"; "-e"; "A=1"];
                  cmd_env := None; cmd_files := files w |})).
Proof.
  assert (range secretsOne = [("A", "1")]) as Hrange.
  { apply Permutation_singleton_r. rewrite (range_perm secretsOne).
    vm_compute. reflexivity. }
  split; [|split].
  2: { intros w. unfold runDockerCompose. rewrite Hrange.
       vm_compute. reflexivity. }
  2: { intros w. unfold runDockerCompose. rewrite Hrange.
       vm_compute. reflexivity. }
  intros opts secrets rest w.
  intros Hargs. unfold runDockerCompose.
  rewrite (isComposeRun_run opts rest Hargs).
  unfold mbind at 1. unfold Go_bind, lift.
  rewrite foldl_inject_all, Hargs.
  destruct rest as [|tok rest].
  - rewrite decide_False by (simpl; lia).
    eexists. split; [reflexivity|]. simpl.
    by rewrite app_nil_r.
  - rewrite decide_True by (simpl; lia).
    eexists. split; [reflexivity|]. simpl. done.
Qed.

(** C7. Compose, any other sub-subcommand. With secrets, and a host that
    creates the file and stores the writes, the vector is "compose",
    "--env-file", the path, then the caller's tokens, and the file the
    process finds at the path holds one [KEY=VALUE] line per secret. With no
    secrets the caller's tokens are passed through after "compose" and no
    file is created. *)
Theorem runDockerCompose_env_file (opts : DockerOptions)
    (secrets : gmap string string) (w : World) :
  head (DockerArgs opts) ≠ Some "run" →
  (secrets ≠ ∅ →
   ∀ path, tempFile w = inl path →
     (∀ j, j < size secrets → shortWrite w (writes w + j) = None) →
     ∃ w',
       runDockerCompose range opts secrets w = Done (exitStatus w, w') ∧
       launched w'
       = launched w ++
         [{| cmd_name := "docker";
             cmd_args := ["compose"; "--env-file"; path] ++ DockerArgs opts;
             cmd_env := None;
             cmd_files :=
               <[path := envFileText (range secrets)]> (files w) |}] ∧
       range secrets ≡ₚ map_to_list secrets ∧
       files w' = delete path (files w)) ∧
  (secrets = ∅ →
   ∃ w',
     runDockerCompose range opts secrets w = Done (exitStatus w, w') ∧
     launched w'
     = launched w ++
       [{| cmd_name := "docker"; cmd_args := ["compose"] ++ DockerArgs opts;
           cmd_env := None; cmd_files := files w |}] ∧
     files w' = files w ∧ writes w' = writes w).
Proof.
  intros Hother. pose proof (isComposeRun_other opts Hother) as Hrun. split.
  - intros Hne path Htmp Hfull.
    assert (0 < size secrets) as Hsize.
    { apply map_size_non_empty_iff in Hne. lia. }
    destruct (runDockerCompose_env_file_branch opts secrets w path
                Hrun Hsize Htmp Hfull) as (w' & Hres & Hcall & Hfiles).
    exists w'. by repeat split.
  - intros ->. unfold runDockerCompose. rewrite Hrun.
    unfold mbind at 1. unfold Go_bind, lift.
    rewrite decide_False by (rewrite map_size_empty; lia).
    eexists. split; [reflexivity|]. done.
Qed.

(** C8, as the code has it. On a host that creates the temporary file but
    stores nothing of what is written to it, compose "up" still launches the
    process, with an empty env file, and returns no error. The claim asks
    for an abort with a wrapped error and no launch. *)
Theorem runDockerCompose_write_failure_unchecked :
  ∃ w',
    runDockerCompose range optsComposeUp secretsOne worldDiskFull
    = Done (None, w') ∧
    launched w'
    = [{| cmd_name := "docker";
          cmd_args := ["compose"; "--env-file"; tmpPath; "up"; "-d"];
          cmd_env := None;
          cmd_files := {[ tmpPath := "" ]} |}].
Proof.
  assert (range secretsOne = [("A", "1")]) as Hrange.
  { apply Permutation_singleton_r. rewrite (range_perm secretsOne).
    vm_compute. reflexivity. }
  unfold runDockerCompose. rewrite Hrange.
  eexists. split; vm_compute; reflexivity.
Qed.

(** C10. With no token after "compose" and a non-empty secret set, the
    env-file branch is taken. An environment flag with an empty payload
    ([-e=], [--env=], or [-e] or [--env] as last token) adds no entry to the
    override set, in particular none with an empty key. *)
Theorem runDockerCompose_bare_and_empty_payload :
  (∀ opts secrets w path,
     DockerArgs opts = [] → secrets ≠ ∅ → tempFile w = inl path →
     (∀ j, j < size secrets → shortWrite w (writes w + j) = None) →
     ∃ w',
       runDockerCompose range opts secrets w = Done (exitStatus w, w') ∧
       launched w'
       = launched w ++
         [{| cmd_name := "docker";
             cmd_args := ["compose"; "--env-file"; path];
             cmd_env := None;
             cmd_files :=
               <[path := envFileText (range secrets)]> (files w) |}] ∧
       range secrets ≡ₚ map_to_list secrets) ∧
  (∀ args i tok result,
     args !! i = Some tok → tok = "-e=" ∨ tok = "--env=" →
     extractUserEnvVars_from args i result
     = extractUserEnvVars_from args (i + 1) result) ∧
  (∀ args i tok result,
     args !! i = Some tok → tok = "-e" ∨ tok = "--env" →
     length args = i + 1 →
     extractUserEnvVars_from args i result = Done result) ∧
  (∀ result, recordEnvVal "" result = Done result) ∧
  extractUserEnvVars ["-e="] = Done ∅ ∧
  extractUserEnvVars ["--env="] = Done ∅ ∧
  extractUserEnvVars ["-e"] = Done ∅ ∧
  extractUserEnvVars ["--env"] = Done ∅ ∧
  extractUserEnvVars ["-e"; "A=1"; "-e="; "-e"]
  = Done {[ "A" := "1" ]}.
Proof.
  split.
  { intros opts secrets w path Hargs Hne Htmp Hfull.
    assert (0 < size secrets) as Hsize.
    { apply map_size_non_empty_iff in Hne. lia. }
    assert (isComposeRun opts = Done false) as Hrun.
    { apply isComposeRun_other. by rewrite Hargs. }
    destruct (runDockerCompose_env_file_branch opts secrets w path
                Hrun Hsize Htmp Hfull) as (w' & Hres & Hcall & _).
    exists w'. rewrite Hargs in Hcall. by repeat split. }
  split.
  { intros args i tok result Htok Hform.
    rewrite (extractUserEnvVars_from_at _ _ _ _ Htok).
    destruct Hform as [-> | ->]; reflexivity. }
  split.
  { intros args i tok result Htok Hform Hlast.
    rewrite (extractUserEnvVars_from_at _ _ _ _ Htok).
    rewrite decide_True by done.
    rewrite (lookup_ge_None_2 args (i + 1)) by lia.
    apply extractUserEnvVars_from_end. lia. }
  split; [intros result; apply recordEnvVal_override|].
  repeat split; vm_compute; reflexivity.
Qed.

End ComposeMode.

Lemma runDockerCompose_run_witness :
  (∀ m : gmap string string, map_to_list m ≡ₚ map_to_list m) ∧
  DockerArgs optsComposeRun = "run" :: ["-e"; "A=mine"; "web"] ∧
  (∃ w',
    runDockerCompose map_to_list optsComposeRun secretsOne worldOk
    = Done (exitStatus worldOk, w') ∧
    launched w'
    = launched worldOk ++
      [{| cmd_name := "docker";
          cmd_args := ["compose"; "run"] ++ envFlags (map_to_list secretsOne)
                      ++ ["-e"; "A=mine"; "web"];
          cmd_env := None; cmd_files := files worldOk |}] ∧
    map_to_list secretsOne ≡ₚ map_to_list secretsOne ∧
    files w' = files worldOk ∧ writes w' = writes worldOk) ∧
  runDockerCompose map_to_list optsComposeRun secretsOne worldOk
  = Done (None,
          afterCall worldOk
            {| cmd_name := "docker";
               cmd_args := ["compose"; "run"; "-e"; "A=1";
                            "-e"; "A=mine"; "web"];
               cmd_env := None; cmd_files := ∅ |}).
Proof.
  split; [intros m; reflexivity|]. split; [reflexivity|]. split.
  - exact (proj1 (runDockerCompose_run map_to_list
                    (λ m, reflexivity (map_to_list m)))
             optsComposeRun secretsOne ["-e"; "A=mine"; "web"] worldOk
             eq_refl).
  - exact (proj1 (proj2 (runDockerCompose_run map_to_list
                           (λ m, reflexivity (map_to_list m)))) worldOk).
Defined.

Lemma runDockerCompose_env_file_witness :
  (∀ m : gmap string string, map_to_list m ≡ₚ map_to_list m) ∧
  head (DockerArgs optsComposeUp) ≠ Some "run" ∧
  secretsOne ≠ ∅ ∧
  tempFile worldOk = inl tmpPath ∧
  (∀ j, j < size secretsOne →
        shortWrite worldOk (writes worldOk + j) = None) ∧
  ∃ w',
    runDockerCompose map_to_list optsComposeUp secretsOne worldOk
    = Done (exitStatus worldOk, w') ∧
    launched w'
    = launched worldOk ++
      [{| cmd_name := "docker";
          cmd_args := ["compose"; "--env-file"; tmpPath]
                      ++ DockerArgs optsComposeUp;
          cmd_env := None;
          cmd_files :=
            <[tmpPath := envFileText (map_to_list secretsOne)]>
              (files worldOk) |}] ∧
    map_to_list secretsOne ≡ₚ map_to_list secretsOne ∧
    files w' = delete tmpPath (files worldOk).
Proof.
  assert (head (DockerArgs optsComposeUp) ≠ Some "run") as Hother
    by discriminate.
  assert (secretsOne ≠ ∅) as Hne.
  { intros H. apply (f_equal (λ m : gmap string string, m !! "A")) in H.
    vm_compute in H. discriminate H. }
  assert (∀ j, j < size secretsOne →
               shortWrite worldOk (writes worldOk + j) = None) as Hfull
    by (intros j _; reflexivity).
  split; [intros m; reflexivity|].
  refine (conj Hother (conj Hne (conj eq_refl (conj Hfull _)))).
  exact (proj1 (runDockerCompose_env_file map_to_list
                  (λ m, reflexivity (map_to_list m))
                  optsComposeUp secretsOne worldOk Hother)
           Hne tmpPath eq_refl Hfull).
Defined.

Lemma runDockerCompose_write_failure_unchecked_witness :
  (∀ m : gmap string string, map_to_list m ≡ₚ map_to_list m) ∧
  ∃ w',
    runDockerCompose map_to_list optsComposeUp secretsOne worldDiskFull
    = Done (None, w') ∧
    launched w'
    = [{| cmd_name := "docker";
          cmd_args := ["compose"; "--env-file"; tmpPath; "up"; "-d"];
          cmd_env := None;
          cmd_files := {[ tmpPath := "" ]} |}].
Proof.
  split; [intros m; reflexivity|].
  exact (runDockerCompose_write_failure_unchecked map_to_list
           (λ m, reflexivity (map_to_list m))).
Defined.

Lemma runDockerCompose_bare_and_empty_payload_witness :
  (∀ m : gmap string string, map_to_list m ≡ₚ map_to_list m) ∧
  DockerArgs optsComposeBare = [] ∧
  secretsOne ≠ ∅ ∧
  tempFile worldOk = inl tmpPath ∧
  (∀ j, j < size secretsOne →
        shortWrite worldOk (writes worldOk + j) = None) ∧
  ∃ w',
    runDockerCompose map_to_list optsComposeBare secretsOne worldOk
    = Done (exitStatus worldOk, w') ∧
    launched w'
    = launched worldOk ++
      [{| cmd_name := "docker";
          cmd_args := ["compose"; "--env-file"; tmpPath];
          cmd_env := None;
          cmd_files :=
            <[tmpPath := envFileText (map_to_list secretsOne)]>
              (files worldOk) |}] ∧
    map_to_list secretsOne ≡ₚ map_to_list secretsOne.
Proof.
  assert (secretsOne ≠ ∅) as Hne.
  { intros H. apply (f_equal (λ m : gmap string string, m !! "A")) in H.
    vm_compute in H. discriminate H. }
  assert (∀ j, j < size secretsOne →
               shortWrite worldOk (writes worldOk + j) = None) as Hfull
    by (intros j _; reflexivity).
  split; [intros m; reflexivity|].
  refine (conj eq_refl (conj Hne (conj eq_refl (conj Hfull _)))).
  exact (proj1 (runDockerCompose_bare_and_empty_payload map_to_list
                  (λ m, reflexivity (map_to_list m)))
           optsComposeBare secretsOne worldOk tmpPath
           eq_refl Hne eq_refl Hfull).
Defined.

(** * Further properties of the code *)

(** ** The classifier *)

Lemma Options_app (pre post : list string) :
  Options pre → Options post → Options (pre ++ post).
Proof.
  induction 1 as [|f rest Hf Heq _ IH|f v rest Hf Heq Hv _ IH
                 |f rest Hf Heq Hv _ IH]; intros Hpost; simpl.
  - done.
  - apply Options_inline; auto.
  - apply Options_value; auto.
  - apply Options_bool; auto.
Qed.

Lemma OnlyFlags_app (pre rest : list string) :
  Options pre → OnlyFlags rest → OnlyFlags (pre ++ rest).
Proof.
  intros Hpre [l Hl|l f Hl Hf Heq Hv].
  - apply OnlyFlags_options. by apply Options_app.
  - rewrite app_assoc. apply OnlyFlags_dangling; [|done..].
    by apply Options_app.
Qed.

Lemma OnlyFlags_cons_inline f rest :
  HasPrefix f "-" = true → Contains f "=" = true →
  OnlyFlags rest → OnlyFlags (f :: rest).
Proof.
  intros Hf Heq. apply (OnlyFlags_app [f]).
  by apply Options_inline; [..|constructor].
Qed.

Lemma OnlyFlags_cons_bool f rest :
  HasPrefix f "-" = true → Contains f "=" = false → takesValue f = false →
  OnlyFlags rest → OnlyFlags (f :: rest).
Proof.
  intros Hf Heq Hv. apply (OnlyFlags_app [f]).
  by apply Options_bool; [..|constructor].
Qed.

Lemma OnlyFlags_cons_value f v rest :
  HasPrefix f "-" = true → Contains f "=" = false → takesValue f = true →
  OnlyFlags rest → OnlyFlags (f :: v :: rest).
Proof.
  intros Hf Heq Hv. apply (OnlyFlags_app [f; v]).
  by apply Options_value; [..|constructor].
Qed.

(** Absent from a cursor on: what lies ahead of the cursor is flags only. *)
Lemma findImagePosition_from_absent args n : ∀ i,
  length args - i ≤ n →
  findImagePosition_from args i = Done (-1)%Z →
  OnlyFlags (drop i args).
Proof.
  induction n as [|n IH]; intros i Hn Habs.
  { rewrite drop_ge by lia. apply OnlyFlags_options. constructor. }
  destruct (args !! i) as [arg|] eqn:Harg; last first.
  { apply lookup_ge_None in Harg. rewrite drop_ge by lia.
    apply OnlyFlags_options. constructor. }
  pose proof (lookup_lt_Some _ _ _ Harg) as Hlt.
  rewrite (findImagePosition_from_at _ _ _ Harg) in Habs.
  rewrite (drop_S _ _ _ Harg).
  destruct (HasPrefix arg "-") eqn:Hflag; simpl in Habs.
  2: { injection Habs as Habs. lia. }
  destruct (Contains arg "=") eqn:Heq.
  { apply OnlyFlags_cons_inline; [done..|].
    rewrite <- Nat.add_1_r. apply IH; [lia | done]. }
  destruct (takesValue arg) eqn:Hval.
  - destruct (args !! (S i)) as [v|] eqn:Hv.
    + rewrite (drop_S _ _ _ Hv). apply OnlyFlags_cons_value; [done..|].
      replace (S (S i)) with (i + 2) by lia. apply IH; [lia | done].
    + apply lookup_ge_None in Hv. rewrite (drop_ge _ (S i)) by lia.
      by apply (OnlyFlags_dangling [] arg); [constructor|..].
  - apply OnlyFlags_cons_bool; [done..|].
    rewrite <- Nat.add_1_r. apply IH; [lia | done].
Qed.

Lemma findImagePosition_absent_OnlyFlags (args : list string) :
  findImagePosition args = Done (-1)%Z → OnlyFlags args.
Proof.
  intros Habs.
  pose proof (findImagePosition_from_absent args (length args) 0
                ltac:(lia) Habs) as H.
  by rewrite drop_0 in H.
Qed.

(** X1. The classifier answers absent exactly for the sequences made of
    options only, the last of which may be a value-consuming flag whose
    value is missing. *)
Theorem findImagePosition_absent_iff (args : list string) :
  findImagePosition args = Done (-1)%Z ↔ OnlyFlags args.
Proof.
  split.
  - apply findImagePosition_absent_OnlyFlags.
  - apply findImagePosition_OnlyFlags.
Qed.

(** X2. The position depends only on the tokens up to the image: whatever
    follows the image (the container's command and its arguments, which may
    look like flags) can be replaced without moving it. *)
Theorem findImagePosition_ignores_command (args : list string) (z : Z)
    (command : list string) :
  findImagePosition args = Done z → (0 ≤ z)%Z →
  findImagePosition (take (S (Z.to_nat z)) args ++ command) = Done z.
Proof.
  intros Hz Hnonneg.
  destruct (findImagePosition_sound args) as (z' & Hz' & Hpos).
  assert (z' = z) as -> by congruence.
  destruct Hpos as [->|(p & image & -> & Himg & Hnf & Hopt)]; [lia|].
  rewrite Nat2Z.id. rewrite (take_S_r _ _ _ Himg), <- app_assoc. simpl.
  rewrite (findImagePosition_image _ _ _ Hopt Hnf).
  rewrite length_take_le; [done|]. apply lookup_lt_Some in Himg. lia.
Qed.

Lemma findImagePosition_ignores_command_witness :
  findImagePosition ["--rm"; "alpine"; "sh"] = Done 1%Z ∧ (0 ≤ 1)%Z ∧
  findImagePosition (take (S (Z.to_nat 1)) ["--rm"; "alpine"; "sh"]
                     ++ ["ls"; "-l"; "--name"])
  = Done 1%Z.
Proof.
  assert (findImagePosition ["--rm"; "alpine"; "sh"] = Done 1%Z) as Hz
    by (vm_compute; reflexivity).
  assert (0 ≤ 1)%Z as Hnonneg by lia.
  refine (conj Hz (conj Hnonneg _)).
  exact (findImagePosition_ignores_command _ 1%Z ["ls"; "-l"; "--name"]
           Hz Hnonneg).
Defined.

(** X3. Every spelling that the arity table marks value-consuming starts
    with [-] and contains no [=]: no entry of the table is hidden by the
    two tests the loop makes before it consults the table. *)
Theorem flagsWithValue_spellings (flag : string) :
  takesValue flag = true →
  HasPrefix flag "-" = true ∧ Contains flag "=" = false.
Proof.
  unfold takesValue. intros Hflag.
  destruct (flagsWithValue !! flag) as [b|] eqn:Hlook; [|done].
  apply elem_of_map_to_list, list_elem_of_In in Hlook.
  assert (forallb (λ kv : string * bool,
                     HasPrefix kv.1 "-" && negb (Contains kv.1 "="))
                  (map_to_list flagsWithValue) = true) as Hall
    by (vm_compute; reflexivity).
  rewrite forallb_forall in Hall. specialize (Hall _ Hlook).
  clear Hlook. cbn [fst] in Hall.
  apply andb_true_iff in Hall as [H1 H2].
  split; [exact H1 | exact (proj1 (negb_true_iff _) H2)].
Qed.

Lemma flagsWithValue_spellings_witness :
  takesValue "--publish" = true ∧
  HasPrefix "--publish" "-" = true ∧ Contains "--publish" "=" = false.
Proof.
  assert (takesValue "--publish" = true) as Hflag
    by (vm_compute; reflexivity).
  refine (conj Hflag _).
  exact (flagsWithValue_spellings "--publish" Hflag).
Defined.

(** ** The extractor *)

Lemma foldl_override_is_Some (k : string) (payloads : list string) : ∀ m,
  is_Some (foldl (λ m payload, override payload m) m payloads !! k) ↔
  is_Some (m !! k) ∨
  ∃ p, p ∈ payloads ∧ p ≠ "" ∧ (splitFirst p).1 = k.
Proof.
  induction payloads as [|q payloads IH]; intros m; simpl.
  - split; [by left|]. intros [H|(p & Hp & _)]; [done|].
    by apply not_elem_of_nil in Hp.
  - rewrite IH. unfold override at 1.
    destruct (decide (q = "")) as [->|Hq].
    + split.
      * intros [H|(p & Hp & Hne & Hk)]; [by left|].
        right. exists p. split; [by apply list_elem_of_further | done].
      * intros [H|(p & Hp & Hne & Hk)]; [by left|].
        apply elem_of_cons in Hp as [->|Hp]; [done|].
        right. by exists p.
    + rewrite lookup_insert_is_Some. split.
      * intros [[H|[_ H]]|(p & Hp & Hne & Hk)].
        -- right. exists q. split; [apply list_elem_of_here | done].
        -- by left.
        -- right. exists p. split; [by apply list_elem_of_further | done].
      * intros [H|(p & Hp & Hne & Hk)].
        -- left. destruct (decide ((splitFirst q).1 = k)); [by left|].
           by right.
        -- apply elem_of_cons in Hp as [->|Hp]; [by left; left|].
           right. by exists p.
Qed.

(** X4. A name is a key of the override set exactly when some environment
    flag of the sequence has a non-empty payload whose part before the first
    [=] is that name; any other name is missing from the set. *)
Theorem extractUserEnvVars_keys (args : list string)
    (m : gmap string string) (k : string) :
  extractUserEnvVars args = Done m →
  (is_Some (m !! k) ↔
   ∃ p, p ∈ envPayloads args ∧ p ≠ "" ∧ (splitFirst p).1 = k).
Proof.
  rewrite extractUserEnvVars_payloads. intros [= <-].
  unfold overridesOf. rewrite foldl_override_is_Some, lookup_empty.
  split; [|by right]. intros [H|H]; [|done]. by destruct H.
Qed.

Lemma extractUserEnvVars_keys_witness :
  extractUserEnvVars ["-e"; "A=1"; "--env=B"]
  = Done {[ "A" := "1"; "B" := "" ]} ∧
  (is_Some (({[ "A" := "1"; "B" := "" ]} : gmap string string) !! "B") ↔
   ∃ p, p ∈ envPayloads ["-e"; "A=1"; "--env=B"] ∧ p ≠ "" ∧
        (splitFirst p).1 = "B").
Proof.
  assert (extractUserEnvVars ["-e"; "A=1"; "--env=B"]
          = Done {[ "A" := "1"; "B" := "" ]}) as Hm
    by (vm_compute; reflexivity).
  refine (conj Hm _).
  exact (extractUserEnvVars_keys _ _ "B" Hm).
Defined.

Lemma envPayloads_envFlags (kvs : list (string * string))
    (rest : list string) :
  envPayloads (envFlags kvs ++ rest)
  = map (λ kv, Sprintf_kv kv.1 kv.2) kvs ++ envPayloads rest.
Proof.
  induction kvs as [|[k v] kvs IH]; [done|].
  change (envFlags ((k, v) :: kvs) ++ rest)
    with ("-e" :: Sprintf_kv k v :: (envFlags kvs ++ rest)).
  cbn [envPayloads]. rewrite decide_True by (by left).
  by rewrite IH.
Qed.

Lemma override_Sprintf_kv (k v : string) (m : gmap string string) :
  Index k "=" = None → override (Sprintf_kv k v) m = <[k := v]> m.
Proof.
  intros Hk. unfold override, Sprintf_kv. rewrite splitFirst_pair by done.
  rewrite decide_False; [done|]. destruct k; discriminate.
Qed.

Lemma foldl_override_kvs_notin (kvs : list (string * string)) (k : string) :
  ∀ m,
  Forall (λ kv, Index kv.1 "=" = None) kvs →
  k ∉ kvs.*1 →
  foldl (λ m payload, override payload m) m
        (map (λ kv, Sprintf_kv kv.1 kv.2) kvs) !! k = m !! k.
Proof.
  induction kvs as [|[k' v'] kvs IH]; intros m Hkeys Hnotin; [done|].
  apply Forall_cons in Hkeys as [Hk' Hkeys].
  apply not_elem_of_cons in Hnotin as [Hne Hnotin]. simpl in *.
  rewrite IH by done. rewrite override_Sprintf_kv by done.
  by rewrite lookup_insert_ne.
Qed.

Lemma foldl_override_kvs_in (kvs : list (string * string)) (k v : string) :
  ∀ m,
  Forall (λ kv, Index kv.1 "=" = None) kvs →
  NoDup kvs.*1 → (k, v) ∈ kvs →
  foldl (λ m payload, override payload m) m
        (map (λ kv, Sprintf_kv kv.1 kv.2) kvs) !! k = Some v.
Proof.
  induction kvs as [|[k' v'] kvs IH]; intros m Hkeys Hnodup Hin.
  { by apply not_elem_of_nil in Hin. }
  apply Forall_cons in Hkeys as [Hk' Hkeys].
  apply NoDup_cons in Hnodup as [Hfresh Hnodup]. simpl in *.
  apply elem_of_cons in Hin as [[= -> ->]|Hin].
  - rewrite foldl_override_kvs_notin by done.
    rewrite override_Sprintf_kv by done. apply lookup_insert_eq.
  - by apply IH.
Qed.

(** ** Run mode, further *)

Section RunModeFurther.
Variable range : gmap string string → list (string * string).
Hypothesis range_perm : ∀ m, range m ≡ₚ map_to_list m.

(** X5. Round trip. When no secret name contains [=], the extractor reads
    the flags that the builder injects for a secret set back as that very
    set, whatever the order in which the secrets were visited. *)
Theorem extractUserEnvVars_envFlags (secrets : gmap string string) :
  (∀ k v, secrets !! k = Some v → Index k "=" = None) →
  extractUserEnvVars (envFlags (range secrets)) = Done secrets.
Proof.
  intros Hkeys. rewrite extractUserEnvVars_payloads. f_equal.
  rewrite <- (app_nil_r (envFlags _)), envPayloads_envFlags, app_nil_r.
  unfold overridesOf.
  assert (Forall (λ kv : string * string, Index kv.1 "=" = None)
                 (range secrets)) as Hall.
  { apply Forall_forall. intros [k v] Hin.
    rewrite (range_perm secrets) in Hin.
    apply elem_of_map_to_list in Hin. by eapply Hkeys. }
  assert (NoDup (range secrets).*1) as Hnodup.
  { rewrite (range_perm secrets). apply NoDup_fst_map_to_list. }
  apply map_eq. intros k. destruct (secrets !! k) as [v|] eqn:Hk.
  - apply foldl_override_kvs_in; [done..|].
    rewrite (range_perm secrets). by apply elem_of_map_to_list.
  - rewrite foldl_override_kvs_notin; [done..|].
    intros Hin. apply list_elem_of_fmap in Hin as ([k' v] & -> & Hin).
    rewrite (range_perm secrets) in Hin.
    apply elem_of_map_to_list in Hin. simpl in Hk. congruence.
Qed.

(** X6. When no token of the caller is an environment flag, the override
    set is empty and run mode injects a pair for every secret. *)
Theorem runDockerRun_no_env_flags (opts : DockerOptions)
    (secrets : gmap string string) :
  Forall (λ tok, ¬ isEnvFlag tok) (DockerArgs opts) →
  extractUserEnvVars (DockerArgs opts) = Done ∅ ∧
  ∃ z,
    findImagePosition (DockerArgs opts) = Done z ∧
    runDockerRun_newArgs range opts secrets
    = Done (runVector (DockerCommand opts) (DockerArgs opts) z
              (envFlags (range secrets))).
Proof.
  intros Hnone.
  assert (envPayloads (DockerArgs opts) = []) as Hpay.
  { induction (DockerArgs opts) as [|tok rest IH]; [done|].
    apply Forall_cons in Hnone as [Htok Hrest]. cbn [envPayloads].
    unfold isEnvFlag in Htok.
    rewrite decide_False by tauto.
    destruct (HasPrefix tok "-e=") eqn:H1; [tauto|].
    destruct (HasPrefix tok "--env=") eqn:H2; [tauto|]. by apply IH. }
  assert (extractUserEnvVars (DockerArgs opts) = Done ∅) as Hov.
  { by rewrite extractUserEnvVars_payloads, Hpay. }
  split; [done|].
  destruct (runDockerRun_newArgs_shape range opts secrets)
    as (ov & z & Hov' & Hz & Hargs & _).
  assert (ov = ∅) as -> by congruence.
  exists z. split; [done|]. rewrite Hargs.
  assert (∀ kvs : list (string * string),
            filter (λ kv, (∅ : gmap string string) !! kv.1 = None) kvs = kvs)
    as Hall.
  { induction kvs as [|[k v] kvs IH]; [done|].
    rewrite filter_cons_True by apply lookup_empty. by rewrite IH. }
  by rewrite Hall.
Qed.

Lemma runDockerRun_newArgs_unchanged (opts : DockerOptions)
    (secrets overrides : gmap string string) :
  extractUserEnvVars (DockerArgs opts) = Done overrides →
  dom secrets ⊆ dom overrides →
  runDockerRun_newArgs range opts secrets
  = Done (DockerCommand opts :: DockerArgs opts).
Proof.
  intros Hov Hsub.
  destruct (runDockerRun_newArgs_shape range opts secrets)
    as (ov & z & Hov' & Hz & Hargs & _).
  assert (ov = overrides) as -> by congruence.
  rewrite Hargs. f_equal.
  assert (filter (λ kv : string * string, overrides !! kv.1 = None)
                 (range secrets) = []) as ->.
  { apply Permutation_nil_r. rewrite (injected_effective range range_perm).
    unfold effectiveInjectionSet.
    assert (filter (λ kv : string * string, overrides !! kv.1 = None) secrets
            = ∅) as ->; [|by rewrite map_to_list_empty].
    apply map_eq. intros k. rewrite lookup_empty.
    apply map_lookup_filter_None_2. right. intros v Hk Hnone.
    simpl in Hnone. apply not_elem_of_dom in Hnone. apply Hnone, Hsub.
    apply elem_of_dom. by exists v. }
  unfold runVector. simpl.
  destruct (decide (0 ≤ z)%Z); [|done]. by rewrite take_drop.
Qed.

(** X7. When every secret name is overridden by the caller (in particular
    when there are no secrets), run mode hands docker the subcommand and the
    caller's tokens unchanged, and the runner gets a nil environment. *)
Theorem runDockerRun_nothing_to_inject (opts : DockerOptions)
    (secrets overrides : gmap string string) (w : World) :
  extractUserEnvVars (DockerArgs opts) = Done overrides →
  dom secrets ⊆ dom overrides →
  runDockerRun_newArgs range opts secrets
  = Done (DockerCommand opts :: DockerArgs opts) ∧
  runDockerRun range opts secrets w
  = Done (exitStatus w,
          afterCall w {| cmd_name := "docker";
                         cmd_args := DockerCommand opts :: DockerArgs opts;
                         cmd_env := None; cmd_files := files w |}).
Proof.
  intros Hov Hsub.
  pose proof (runDockerRun_newArgs_unchanged opts secrets overrides
                Hov Hsub) as Hargs.
  split; [done|].
  unfold runDockerRun, mbind, Go_bind, lift. by rewrite Hargs.
Qed.

(** X8. Run mode adds two tokens for each secret of the effective injection
    set and drops none: the vector has one token for the subcommand, the
    caller's tokens, and twice as many more as there are secrets whose name
    the caller did not set. *)
Theorem runDockerRun_vector_length (opts : DockerOptions)
    (secrets : gmap string string) :
  ∃ overrides argv,
    extractUserEnvVars (DockerArgs opts) = Done overrides ∧
    runDockerRun_newArgs range opts secrets = Done argv ∧
    length argv
    = 1 + length (DockerArgs opts)
      + 2 * size (effectiveInjectionSet secrets overrides).
Proof.
  destruct (runDockerRun_newArgs_shape range opts secrets)
    as (ov & z & Hov & Hz & Hargs & Hpos).
  eexists ov, _. split; [done|]. split; [done|].
  rewrite <- length_map_to_list, <- (injected_effective range range_perm).
  rewrite <- envFlags_length. unfold runVector.
  destruct (decide (0 ≤ z)%Z).
  - rewrite !length_app, length_take, length_drop. simpl. lia.
  - rewrite !length_app. simpl. lia.
Qed.

Lemma Options_envFlags (kvs : list (string * string)) :
  Options (envFlags kvs).
Proof.
  induction kvs as [|[k v] kvs IH]; [constructor|].
  change (envFlags ((k, v) :: kvs))
    with ("-e" :: Sprintf_kv k v :: envFlags kvs).
  apply Options_value; [reflexivity | reflexivity | | done].
  vm_compute. reflexivity.
Qed.

(** X9. Injection keeps the classifier's reading of the command line. If
    the caller's tokens had their image at a position, the rewritten tokens
    have it at that position moved right by the number of injected tokens;
    if they had none, the rewritten tokens have none. *)
Theorem runDockerRun_keeps_image (opts : DockerOptions)
    (secrets : gmap string string) :
  ∃ overrides z argv,
    extractUserEnvVars (DockerArgs opts) = Done overrides ∧
    findImagePosition (DockerArgs opts) = Done z ∧
    runDockerRun_newArgs range opts secrets = Done argv ∧
    findImagePosition (drop 1 argv)
    = Done (if decide (0 ≤ z)%Z
            then z + 2 * Z.of_nat
                           (size (effectiveInjectionSet secrets overrides))
            else -1)%Z.
Proof.
  destruct (runDockerRun_newArgs_shape range opts secrets)
    as (ov & z & Hov & Hz & Hargs & _).
  eexists ov, z, _. split; [done|]. split; [done|]. split; [exact Hargs|].
  assert (size (effectiveInjectionSet secrets ov)
          = length (filter (λ kv : string * string, ov !! kv.1 = None)
                           (range secrets))) as ->.
  { by rewrite <- length_map_to_list,
               <- (injected_effective range range_perm). }
  set (injected := filter _ (range secrets)).
  pose proof (Options_envFlags injected) as Hflags.
  pose proof (envFlags_length injected) as Hlen.
  destruct (findImagePosition_sound (DockerArgs opts)) as (z' & Hz' & Hpos).
  assert (z' = z) as -> by congruence.
  unfold runVector.
  destruct Hpos as [->|(p & image & -> & Himg & Hnf & Hopt)].
  - rewrite !decide_False by lia. simpl. rewrite drop_0.
    apply findImagePosition_OnlyFlags, OnlyFlags_app; [done|].
    by apply findImagePosition_absent_OnlyFlags.
  - rewrite !decide_True by lia. rewrite Nat2Z.id. simpl. rewrite drop_0.
    rewrite (drop_S _ _ _ Himg), app_assoc.
    rewrite (findImagePosition_image _ image _); [|by apply Options_app|done].
    f_equal. rewrite length_app, length_take_le, Hlen; [lia|].
    apply lookup_lt_Some in Himg. lia.
Qed.

End RunModeFurther.

Lemma extractUserEnvVars_envFlags_witness :
  (∀ m : gmap string string, map_to_list m ≡ₚ map_to_list m) ∧
  (∀ k v, secretsTwo !! k = Some v → Index k "=" = None) ∧
  extractUserEnvVars (envFlags (map_to_list secretsTwo)) = Done secretsTwo.
Proof.
  assert (∀ k v, secretsTwo !! k = Some v → Index k "=" = None) as Hkeys.
  { intros k v Hk. apply elem_of_map_to_list, list_elem_of_In in Hk.
    assert (forallb (λ kv : string * string,
                       bool_decide (Index kv.1 "=" = None))
                    (map_to_list secretsTwo) = true) as Hall
      by (vm_compute; reflexivity).
    rewrite forallb_forall in Hall. specialize (Hall _ Hk).
    by apply bool_decide_eq_true in Hall. }
  split; [intros m; reflexivity|]. refine (conj Hkeys _).
  exact (extractUserEnvVars_envFlags map_to_list
           (λ m, reflexivity (map_to_list m)) secretsTwo Hkeys).
Defined.

Lemma runDockerRun_no_env_flags_witness :
  Forall (λ tok, ¬ isEnvFlag tok) ["-d"; "nginx"] ∧
  extractUserEnvVars ["-d"; "nginx"] = Done ∅ ∧
  ∃ z,
    findImagePosition ["-d"; "nginx"] = Done z ∧
    runDockerRun_newArgs map_to_list
      {| EnvName := "development"; EnvFlagSet := true;
         DockerCommand := "run"; DockerArgs := ["-d"; "nginx"] |} secretsOne
    = Done (runVector "run" ["-d"; "nginx"] z
              (envFlags (map_to_list secretsOne))).
Proof.
  assert (Forall (λ tok, ¬ isEnvFlag tok) ["-d"; "nginx"]) as Hnone.
  { repeat (apply Forall_cons; split); [..|by apply Forall_nil];
      intros [H|[H|[H|H]]]; discriminate H. }
  refine (conj Hnone _).
  exact (runDockerRun_no_env_flags map_to_list
           {| EnvName := "development"; EnvFlagSet := true;
              DockerCommand := "run"; DockerArgs := ["-d"; "nginx"] |}
           secretsOne Hnone).
Defined.

Lemma runDockerRun_nothing_to_inject_witness :
  (∀ m : gmap string string, map_to_list m ≡ₚ map_to_list m) ∧
  extractUserEnvVars (DockerArgs optsRun) = Done {[ "API_KEY" := "user" ]} ∧
  dom ({[ "API_KEY" := "v" ]} : gmap string string)
  ⊆ dom ({[ "API_KEY" := "user" ]} : gmap string string) ∧
  runDockerRun_newArgs map_to_list optsRun {[ "API_KEY" := "v" ]}
  = Done (DockerCommand optsRun :: DockerArgs optsRun) ∧
  runDockerRun map_to_list optsRun {[ "API_KEY" := "v" ]} worldOk
  = Done (exitStatus worldOk,
          afterCall worldOk
            {| cmd_name := "docker";
               cmd_args := DockerCommand optsRun :: DockerArgs optsRun;
               cmd_env := None; cmd_files := files worldOk |}).
Proof.
  assert (extractUserEnvVars (DockerArgs optsRun)
          = Done {[ "API_KEY" := "user" ]}) as Hov
    by (vm_compute; reflexivity).
  assert (dom ({[ "API_KEY" := "v" ]} : gmap string string)
          ⊆ dom ({[ "API_KEY" := "user" ]} : gmap string string)) as Hsub
    by (rewrite !dom_singleton_L; done).
  split; [intros m; reflexivity|]. refine (conj Hov (conj Hsub _)).
  exact (runDockerRun_nothing_to_inject map_to_list
           (λ m, reflexivity (map_to_list m))
           optsRun {[ "API_KEY" := "v" ]} {[ "API_KEY" := "user" ]} worldOk
           Hov Hsub).
Defined.

Lemma runDockerRun_vector_length_witness :
  (∀ m : gmap string string, map_to_list m ≡ₚ map_to_list m) ∧
  ∃ overrides argv,
    extractUserEnvVars (DockerArgs optsRun) = Done overrides ∧
    runDockerRun_newArgs map_to_list optsRun secretsTwo = Done argv ∧
    length argv
    = 1 + length (DockerArgs optsRun)
      + 2 * size (effectiveInjectionSet secretsTwo overrides).
Proof.
  split; [intros m; reflexivity|].
  exact (runDockerRun_vector_length map_to_list
           (λ m, reflexivity (map_to_list m)) optsRun secretsTwo).
Defined.

Lemma runDockerRun_keeps_image_witness :
  (∀ m : gmap string string, map_to_list m ≡ₚ map_to_list m) ∧
  ∃ overrides z argv,
    extractUserEnvVars (DockerArgs optsRun) = Done overrides ∧
    findImagePosition (DockerArgs optsRun) = Done z ∧
    runDockerRun_newArgs map_to_list optsRun secretsTwo = Done argv ∧
    findImagePosition (drop 1 argv)
    = Done (if decide (0 ≤ z)%Z
            then z + 2 * Z.of_nat
                           (size (effectiveInjectionSet secretsTwo overrides))
            else -1)%Z.
Proof.
  split; [intros m; reflexivity|].
  exact (runDockerRun_keeps_image map_to_list
           (λ m, reflexivity (map_to_list m)) optsRun secretsTwo).
Defined.

(** ** Compose mode, further *)

(** Whatever the host stores of each write, the loop ends, has issued one
    write per secret and has touched the env file only. *)
Lemma foldl_writeLine_any envFile kvs : ∀ w old,
  files w !! envFile = Some old →
  ∃ text,
    foldl (writeLine envFile) (mret ()) kvs w
    = Done ((), afterWrites w envFile text (length kvs)).
Proof.
  induction kvs as [|[k v] kvs IH]; intros w old Hold.
  - exists old. simpl. unfold mret, Go_ret, afterWrites. do 2 f_equal.
    rewrite Nat.add_0_r, insert_id by done. by destruct w.
  - cbn [foldl]. rewrite foldl_writeLine_acc, writeLine_step.
    edestruct (IH (withFiles
                     (alter (λ old0, old0 +:+
                               match shortWrite w (writes w) with
                               | None => Sprintf_kv_nl k v
                               | Some n =>
                                   strings.first n (Sprintf_kv_nl k v)
                               end) envFile (files w))
                     (afterWrite w))) as [text Htext].
    { simpl. by rewrite lookup_alter_eq, Hold. }
    exists text. rewrite Htext. do 2 f_equal.
    unfold afterWrites, withFiles, afterWrite.
    cbn [files writes launched tempFile shortWrite exitStatus length].
    rewrite insert_alter_same. f_equal. lia.
Qed.

Section ComposeModeFurther.
Variable range : gmap string string → list (string * string).
Hypothesis range_perm : ∀ m, range m ≡ₚ map_to_list m.

Lemma range_empty : range ∅ = [].
Proof.
  apply Permutation_nil_r. by rewrite (range_perm ∅), map_to_list_empty.
Qed.

(** X10. When the temporary env file cannot be created, compose mode
    returns that error wrapped with "failed to create temp env file: ",
    calls the runner not at all and leaves the file system as it was. *)
Theorem runDockerCompose_no_temp_file (opts : DockerOptions)
    (secrets : gmap string string) (w : World) (err : error) :
  head (DockerArgs opts) ≠ Some "run" →
  secrets ≠ ∅ →
  tempFile w = inr err →
  ∃ w',
    runDockerCompose range opts secrets w
    = Done (Some (wrapError "failed to create temp env file: " err), w') ∧
    launched w' = launched w ∧ files w' = files w ∧ writes w' = writes w.
Proof.
  intros Hother Hne Htmp. exists w. split; [|done].
  apply runDockerCompose_create_failure; [by apply isComposeRun_other| |done].
  apply map_size_non_empty_iff in Hne. lia.
Qed.

(** X11. Once the temporary env file is created, compose mode calls the
    runner exactly once, with "compose", "--env-file" and the path before
    the caller's tokens, returns the runner's answer, and has removed the
    file when it returns; it has issued one write per secret. This holds
    whatever the host stores of the writes and whatever the runner
    answers. *)
Theorem runDockerCompose_cleans_up (opts : DockerOptions)
    (secrets : gmap string string) (w : World) (path : string) :
  head (DockerArgs opts) ≠ Some "run" →
  secrets ≠ ∅ →
  tempFile w = inl path →
  ∃ w' text,
    runDockerCompose range opts secrets w = Done (exitStatus w, w') ∧
    launched w'
    = launched w ++
      [{| cmd_name := "docker";
          cmd_args := ["compose"; "--env-file"; path] ++ DockerArgs opts;
          cmd_env := None;
          cmd_files := <[path := text]> (files w) |}] ∧
    files w' !! path = None ∧
    files w' = delete path (files w) ∧
    writes w' = writes w + size secrets.
Proof.
  intros Hother Hne Htmp.
  pose proof (isComposeRun_other opts Hother) as Hrun.
  assert (0 < size secrets) as Hsize.
  { apply map_size_non_empty_iff in Hne. lia. }
  unfold runDockerCompose. rewrite Hrun.
  unfold mbind at 1. unfold Go_bind, lift. rewrite decide_True by done.
  unfold mbind at 1. unfold Go_bind, CreateTemp. rewrite Htmp.
  unfold mbind at 1. unfold Go_bind.
  destruct (foldl_writeLine_any path (range secrets)
              (withFiles (<[path:=""]> (files w)) w) "") as [text Htext].
  { simpl. apply lookup_insert_eq. }
  rewrite Htext. eexists _, text. split; [reflexivity|]. simpl.
  split; [by rewrite insert_insert_eq|].
  split; [apply lookup_delete_eq|].
  split; [by rewrite !delete_insert_eq|].
  by rewrite (range_perm secrets), length_map_to_list.
Qed.

Lemma executeDockerCommand_no_secrets (opts : DockerOptions) (w : World) :
  executeDockerCommand range opts ∅ w
  = Done (exitStatus w,
          afterCall w {| cmd_name := "docker";
                         cmd_args := DockerCommand opts :: DockerArgs opts;
                         cmd_env := None; cmd_files := files w |}).
Proof.
  unfold executeDockerCommand.
  destruct (decide (DockerCommand opts = "compose")) as [->|Hrun].
  - unfold runDockerCompose. rewrite range_empty.
    destruct (DockerArgs opts) as [|a0 rest] eqn:Hargs.
    + rewrite (isComposeRun_other opts) by (by rewrite Hargs).
      unfold mbind at 1. unfold Go_bind, lift.
      by rewrite decide_False by (rewrite map_size_empty; lia).
    + destruct (decide (a0 = "run")) as [->|Hne].
      * rewrite (isComposeRun_run opts rest Hargs).
        unfold mbind at 1. unfold Go_bind, lift. cbn [foldl].
        destruct rest as [|tok rest].
        -- by rewrite decide_False by (simpl; lia).
        -- by rewrite decide_True by (simpl; lia).
      * rewrite (isComposeRun_other opts)
          by (rewrite Hargs; simpl; congruence).
        unfold mbind at 1. unfold Go_bind, lift.
        by rewrite decide_False by (rewrite map_size_empty; lia).
  - destruct (findImagePosition_sound (DockerArgs opts)) as (z & Hz & _).
    unfold runDockerRun, mbind, Go_bind, lift.
    rewrite (runDockerRun_newArgs_unchanged range range_perm opts ∅
               (overridesOf (envPayloads (DockerArgs opts)))); [done|..].
    + apply extractUserEnvVars_payloads.
    + rewrite dom_empty_L. apply empty_subseteq.
Qed.

(** X12. End to end without secrets. [keyway docker] with no further token
    fails with "docker subcommand required"; with tokens and an empty secret
    set, docker is called once with exactly those tokens and a nil
    environment, whatever the subcommand, and nothing is written. *)
Theorem runDockerCmd_passes_through (envChanged : bool) (envName : string)
    (args : list string) (w : World) :
  (args = [] →
   runDockerCmd_opts envChanged envName args
   = Done (inr (errorString
        "docker subcommand required (e.g., 'run' or 'compose')"))) ∧
  (args ≠ [] →
   ∃ opts,
     runDockerCmd_opts envChanged envName args = Done (inl opts) ∧
     DockerCommand opts :: DockerArgs opts = args ∧
     EnvName opts = envName ∧ EnvFlagSet opts = envChanged ∧
     executeDockerCommand range opts ∅ w
     = Done (exitStatus w,
             afterCall w {| cmd_name := "docker"; cmd_args := args;
                            cmd_env := None; cmd_files := files w |})).
Proof.
  split; [by intros ->|].
  intros Hne. destruct args as [|command rest]; [done|].
  eexists. split; [reflexivity|]. split; [done|]. split; [done|].
  split; [done|]. apply executeDockerCommand_no_secrets.
Qed.

End ComposeModeFurther.

Lemma runDockerCompose_no_temp_file_witness :
  head (DockerArgs optsComposeUp) ≠ Some "run" ∧
  secretsOne ≠ ∅ ∧
  tempFile (world0 (inr (errorString "no space left on device"))
                   (λ _, None) None)
  = inr (errorString "no space left on device") ∧
  ∃ w',
    runDockerCompose map_to_list optsComposeUp secretsOne
      (world0 (inr (errorString "no space left on device"))
              (λ _, None) None)
    = Done (Some (wrapError "failed to create temp env file: "
                    (errorString "no space left on device")), w') ∧
    launched w' = [] ∧ files w' = ∅ ∧ writes w' = 0.
Proof.
  assert (head (DockerArgs optsComposeUp) ≠ Some "run") as Hother
    by discriminate.
  assert (secretsOne ≠ ∅) as Hne.
  { intros H. apply (f_equal (λ m : gmap string string, m !! "A")) in H.
    vm_compute in H. discriminate H. }
  refine (conj Hother (conj Hne (conj eq_refl _))).
  exact (runDockerCompose_no_temp_file map_to_list optsComposeUp secretsOne
           (world0 (inr (errorString "no space left on device"))
                   (λ _, None) None)
           (errorString "no space left on device") Hother Hne eq_refl).
Defined.

Lemma runDockerCompose_cleans_up_witness :
  (∀ m : gmap string string, map_to_list m ≡ₚ map_to_list m) ∧
  head (DockerArgs optsComposeUp) ≠ Some "run" ∧
  secretsOne ≠ ∅ ∧
  tempFile worldDiskFull = inl tmpPath ∧
  ∃ w' text,
    runDockerCompose map_to_list optsComposeUp secretsOne worldDiskFull
    = Done (exitStatus worldDiskFull, w') ∧
    launched w'
    = launched worldDiskFull ++
      [{| cmd_name := "docker";
          cmd_args := ["compose"; "--env-file"; tmpPath]
                      ++ DockerArgs optsComposeUp;
          cmd_env := None;
          cmd_files := <[tmpPath := text]> (files worldDiskFull) |}] ∧
    files w' !! tmpPath = None ∧
    files w' = delete tmpPath (files worldDiskFull) ∧
    writes w' = writes worldDiskFull + size secretsOne.
Proof.
  assert (head (DockerArgs optsComposeUp) ≠ Some "run") as Hother
    by discriminate.
  assert (secretsOne ≠ ∅) as Hne.
  { intros H. apply (f_equal (λ m : gmap string string, m !! "A")) in H.
    vm_compute in H. discriminate H. }
  split; [intros m; reflexivity|].
  refine (conj Hother (conj Hne (conj eq_refl _))).
  exact (runDockerCompose_cleans_up map_to_list
           (λ m, reflexivity (map_to_list m))
           optsComposeUp secretsOne worldDiskFull tmpPath
           Hother Hne eq_refl).
Defined.

Lemma runDockerCmd_passes_through_witness :
  (∀ m : gmap string string, map_to_list m ≡ₚ map_to_list m) ∧
  ["compose"; "run"; "web"] ≠ [] ∧
  ∃ opts,
    runDockerCmd_opts false "development" ["compose"; "run"; "web"]
    = Done (inl opts) ∧
    DockerCommand opts :: DockerArgs opts = ["compose"; "run"; "web"] ∧
    EnvName opts = "development" ∧ EnvFlagSet opts = false ∧
    executeDockerCommand map_to_list opts ∅ worldOk
    = Done (exitStatus worldOk,
            afterCall worldOk
              {| cmd_name := "docker";
                 cmd_args := ["compose"; "run"; "web"];
                 cmd_env := None; cmd_files := files worldOk |}).
Proof.
  assert (["compose"; "run"; "web"] ≠ []) as Hne by discriminate.
  split; [intros m; reflexivity|]. refine (conj Hne _).
  exact (proj2 (runDockerCmd_passes_through map_to_list
                  (λ m, reflexivity (map_to_list m))
                  false "development" ["compose"; "run"; "web"] worldOk)
           Hne).
Defined.

(** ** The choice of environment *)

(** The search loop returns the index of the first "development", counted
    from [i], and nothing before that index is "development". *)
Lemma findDefaultIdx_found (vaultEnvs : list string) : ∀ i,
  "development" ∈ vaultEnvs →
  ∃ j, findDefaultIdx vaultEnvs i = i + j ∧
       vaultEnvs !! j = Some "development" ∧
       ∀ j', j' < j → vaultEnvs !! j' ≠ Some "development".
Proof.
  induction vaultEnvs as [|e rest IH]; intros i Hin.
  { by apply not_elem_of_nil in Hin. }
  simpl. destruct (decide (e = "development")) as [->|Hne].
  - exists 0. split; [lia|]. split; [done|]. intros j' Hj'. lia.
  - apply elem_of_cons in Hin as [Heq|Hin]; [done|].
    destruct (IH (S i) Hin) as (j & Hidx & Hj & Hfirst).
    exists (S j). split; [lia|]. split; [done|].
    intros [|j'] Hj'; simpl; [congruence|]. apply Hfirst. lia.
Qed.

Lemma findDefaultIdx_missing (vaultEnvs : list string) : ∀ i,
  "development" ∉ vaultEnvs → findDefaultIdx vaultEnvs i = 0.
Proof.
  induction vaultEnvs as [|e rest IH]; intros i Hnotin; [done|].
  apply not_elem_of_cons in Hnotin as [Hne Hnotin]. simpl.
  rewrite decide_False by done. by apply IH.
Qed.

(** The swap, when the default is not in front. *)
Lemma environmentChoices_swap (fetched : list string + error) (j : nat)
    (first : string) :
  findDefaultIdx (vaultEnvsOrDefault fetched) 0 = j → 0 < j →
  vaultEnvsOrDefault fetched !! j = Some "development" →
  vaultEnvsOrDefault fetched !! 0 = Some first →
  environmentChoices fetched
  = Done (<[j := first]> (<[0 := "development"]>
                            (vaultEnvsOrDefault fetched))).
Proof.
  intros Hidx Hpos Hj H0. unfold environmentChoices. cbv zeta.
  rewrite Hidx. rewrite decide_True by done.
  pose proof (lookup_lt_Some _ _ _ Hj) as Hlt.
  unfold index. rewrite Hj, H0. simpl. unfold store.
  rewrite decide_True by lia. simpl.
  rewrite decide_True by (rewrite length_insert; lia). done.
Qed.

Lemma swap_with_front (base : list string) (j : nat) (first other : string) :
  0 < j → base !! 0 = Some first → base !! j = Some other →
  <[j := first]> (<[0 := other]> base) ≡ₚ base.
Proof.
  intros Hpos H0 Hj. destruct base as [|b rest]; [done|].
  destruct j as [|j]; [lia|]. simpl in *. injection H0 as ->.
  rewrite <- (take_drop_middle rest j other Hj) at 2.
  rewrite insert_take_drop by (by eapply lookup_lt_Some).
  rewrite <- !Permutation_middle. apply perm_swap.
Qed.

(** X13. The options offered for the environment are the vault's
    environments, or "development", "staging", "production" when the vault
    could not be asked or has none; only their order may differ. Computing
    them never reads out of bounds. *)
Theorem environmentChoices_permutation (fetched : list string + error) :
  ∃ choices,
    environmentChoices fetched = Done choices ∧
    choices ≡ₚ vaultEnvsOrDefault fetched ∧
    choices ≠ [] ∧
    (∀ err, fetched = inr err →
       choices = ["development"; "staging"; "production"]) ∧
    (fetched = inl [] →
       choices = ["development"; "staging"; "production"]) ∧
    (∀ vaultEnvs, fetched = inl vaultEnvs → vaultEnvs ≠ [] →
       choices ≡ₚ vaultEnvs).
Proof.
  assert (vaultEnvsOrDefault fetched ≠ []) as Hne.
  { unfold vaultEnvsOrDefault. destruct fetched as [l|err]; [|done].
    destruct (decide (length l = 0)) as [|Hlen]; [done|].
    by destruct l. }
  assert (∃ choices, environmentChoices fetched = Done choices ∧
                     choices ≡ₚ vaultEnvsOrDefault fetched)
    as (choices & Hres & Hperm).
  { destruct (decide (0 < findDefaultIdx (vaultEnvsOrDefault fetched) 0))
      as [Hpos|Hzero].
    - destruct (decide ("development" ∈ vaultEnvsOrDefault fetched))
        as [Hin|Hnotin].
      2: { rewrite findDefaultIdx_missing in Hpos by done. lia. }
      destruct (findDefaultIdx_found _ 0 Hin) as (j & Hidx & Hj & _).
      simpl in Hidx.
      destruct (vaultEnvsOrDefault fetched !! 0) as [first|] eqn:H0.
      2: { apply lookup_ge_None in H0. apply lookup_lt_Some in Hj. lia. }
      eexists. split.
      + apply (environmentChoices_swap _ j first); [done | lia | done..].
      + apply swap_with_front; [lia | done..].
    - exists (vaultEnvsOrDefault fetched). split; [|done].
      unfold environmentChoices. cbv zeta. by rewrite decide_False. }
  exists choices. split; [done|]. split; [done|]. split.
  { intros ->. apply Permutation_nil_l in Hperm. congruence. }
  split.
  { intros err ->. revert Hres. vm_compute. congruence. }
  split.
  { intros ->. revert Hres. vm_compute. congruence. }
  intros vaultEnvs -> Hnonempty. rewrite Hperm.
  unfold vaultEnvsOrDefault. rewrite decide_False; [done|].
  by destruct vaultEnvs.
Qed.

Lemma environmentChoices_permutation_witness :
  ["staging"; "production"; "development"; "qa"] ≠ [] ∧
  ∃ choices,
    environmentChoices (inl ["staging"; "production"; "development"; "qa"])
    = Done choices ∧
    choices ≡ₚ ["staging"; "production"; "development"; "qa"].
Proof.
  assert (["staging"; "production"; "development"; "qa"] ≠ []) as Hne
    by discriminate.
  refine (conj Hne _).
  destruct (environmentChoices_permutation
              (inl ["staging"; "production"; "development"; "qa"]))
    as (choices & Hres & _ & _ & _ & _ & Hperm).
  exists choices. split; [exact Hres|]. exact (Hperm _ eq_refl Hne).
Defined.

(** X14. When "development" is among the environments it is offered first:
    it changes places with the first entry, and every other entry stays
    where it was. When it is missing, or already first, the order is left
    as it was. *)
Theorem environmentChoices_default_first (fetched : list string + error)
    (choices : list string) :
  environmentChoices fetched = Done choices →
  ("development" ∈ vaultEnvsOrDefault fetched →
     ∃ j, vaultEnvsOrDefault fetched !! j = Some "development" ∧
       (∀ j', j' < j →
          vaultEnvsOrDefault fetched !! j' ≠ Some "development") ∧
       choices !! 0 = Some "development" ∧
       choices !! j = (if decide (j = 0) then Some "development"
                       else vaultEnvsOrDefault fetched !! 0) ∧
       (∀ i, i ≠ 0 → i ≠ j →
          choices !! i = vaultEnvsOrDefault fetched !! i)) ∧
  ("development" ∉ vaultEnvsOrDefault fetched →
     choices = vaultEnvsOrDefault fetched) ∧
  (head (vaultEnvsOrDefault fetched) = Some "development" →
     choices = vaultEnvsOrDefault fetched).
Proof.
  intros Hres. split; [|split].
  - intros Hin. destruct (findDefaultIdx_found _ 0 Hin)
      as (j & Hidx & Hj & Hfirst). simpl in Hidx.
    exists j. split; [done|]. split; [done|].
    pose proof (lookup_lt_Some _ _ _ Hj) as Hlt.
    destruct (decide (j = 0)) as [->|Hpos].
    + assert (choices = vaultEnvsOrDefault fetched) as ->.
      { unfold environmentChoices in Hres. cbv zeta in Hres.
        rewrite Hidx, decide_False in Hres by lia. congruence. }
      by repeat split.
    + destruct (vaultEnvsOrDefault fetched !! 0) as [first|] eqn:H0.
      2: { apply lookup_ge_None in H0. lia. }
      rewrite (environmentChoices_swap _ j first) in Hres
        by (done || lia).
      injection Hres as <-. split; [|split].
      * rewrite list_lookup_insert_ne by lia.
        apply list_lookup_insert_eq. lia.
      * apply list_lookup_insert_eq. rewrite length_insert. lia.
      * intros i Hi0 Hij. by rewrite !list_lookup_insert_ne by lia.
  - intros Hnotin. unfold environmentChoices in Hres. cbv zeta in Hres.
    rewrite findDefaultIdx_missing, decide_False in Hres by (done || lia).
    congruence.
  - intros Hhead. unfold environmentChoices in Hres. cbv zeta in Hres.
    destruct (vaultEnvsOrDefault fetched) as [|e rest]; [done|].
    simpl in Hhead. injection Hhead as ->. simpl in Hres.
    congruence.
Qed.

Lemma environmentChoices_default_first_witness :
  environmentChoices (inl ["staging"; "production"; "development"; "qa"])
  = Done ["development"; "production"; "staging"; "qa"] ∧
  ("development"
   ∉ vaultEnvsOrDefault (inl ["staging"; "production"; "qa"])) ∧
  environmentChoices (inl ["staging"; "production"; "qa"])
  = Done ["staging"; "production"; "qa"] ∧
  ["staging"; "production"; "qa"]
  = vaultEnvsOrDefault (inl ["staging"; "production"; "qa"]).
Proof.
  assert (environmentChoices (inl ["staging"; "production"; "qa"])
          = Done ["staging"; "production"; "qa"]) as Hres
    by (vm_compute; reflexivity).
  assert ("development"
          ∉ vaultEnvsOrDefault (inl ["staging"; "production"; "qa"]))
    as Hnotin.
  { intros Hin. repeat (apply elem_of_cons in Hin as [Hin|Hin];
                        [discriminate Hin|]).
    by apply not_elem_of_nil in Hin. }
  split; [vm_compute; reflexivity|]. refine (conj Hnotin (conj Hres _)).
  exact (proj1 (proj2 (environmentChoices_default_first _ _ Hres)) Hnotin).
Defined.
